(** * sshbox: encrypting a file to an OpenSSH RSA key

    A shallow embedding of [sshbox.go] and of the parts of the Go
    libraries it calls ([encoding/base64], [encoding/pem],
    [encoding/asn1], [encoding/binary], [io], [regexp]), followed by the
    properties of the key codec, the container codec and the
    encrypt/decrypt pipeline.

    Conventions.
    - A Go [[]byte] is a [list byte]; a Go [string] used as a byte
      string is compared as a [list byte] too.
    - A Go [(value, err)] result is a [result]: the value is only looked
      at by the callers when [err == nil].  [fetchKey] is the exception:
      its caller ignores [err], so it returns the pair.
    - Lists are unbounded.  Go's [int] range of slice lengths (and the
      matching length bound inside [asn1.Unmarshal]) is a resource limit
      like memory and is not modelled; [int] is 64 bits wide.
    - What the program prints, [os.Exit] and run-time panics are part of
      the model: see [World], [outcome] and the monad [M].
    - The cryptographic libraries are the interface [Crypto]; what the
      theorems ask of them is stated as [key_pair], [secretbox_sound]
      and [secretbox_detects_flips].  The module [toy] is a small
      instance on which the program is run. *)

From Stdlib Require Import ZArith List Lia Bool Strings.String Strings.Byte.
From stdpp Require Import base list gmap strings.
Import ListNotations.
Open Scope Z_scope.

(** ** Bytes *)

Abbreviation bytes := (list byte).

Definition Z_of_byte (b : byte) : Z := Z.of_N (Byte.to_N b).

Definition byte_of_Z (z : Z) : byte :=
  match Byte.of_N (Z.to_N (z mod 256)) with
  | Some b => b
  | None => x00
  end.

#[global] Instance byte_eq_decision : EqDecision byte := Byte.byte_eq_dec.

Definition byte_eqb (a b : byte) : bool := Byte.eqb a b.

Definition bytes_eqb (a b : bytes) : bool :=
  bool_decide (a = b).

(** [[]byte("...")] *)
Definition B (s : string) : bytes := list_byte_of_string s.

(** Big-endian value of a byte string ([big.Int.SetBytes],
    [binary.BigEndian.Uint32]). *)
Definition be_fold (acc : Z) (bs : bytes) : Z :=
  fold_left (fun a b => Z.lor (Z.shiftl a 8) (Z_of_byte b)) bs acc.

Definition be_value (bs : bytes) : Z := be_fold 0 bs.

(** ** Errors *)

Inductive error : Type :=
| io_EOF
| io_ErrUnexpectedEOF
| base64_CorruptInputError
| asn1_SyntaxError (msg : string)
| asn1_StructuralError (msg : string)
| errorString (msg : string)            (* fmt.Errorf *)
| os_PathError (op path : string)
| net_Error (url : string)
| rand_Error
| rsa_ErrMessageTooLong
| rsa_ErrDecryption
| x509_ParseError.

Inductive result (A : Type) : Type :=
| Ok (a : A)
| Err (e : error).
Arguments Ok {A} a.
Arguments Err {A} e.

Definition is_Ok {A} (r : result A) : bool :=
  match r with Ok _ => true | Err _ => false end.

Definition is_Some_bool {A} (o : option A) : bool :=
  match o with Some _ => true | None => false end.

(** ** encoding/base64, [StdEncoding] *)

Module base64.

Definition encodeStd : bytes :=
  B "ABCDEFGHIJKLMNOPQRSTUVWXYZabcdefghijklmnopqrstuvwxyz0123456789+/".

Definition padChar : byte := "=".

Definition encode (i : Z) : byte := nth (Z.to_nat i) encodeStd x00.

Fixpoint index_of (c : byte) (l : bytes) (i : Z) : option Z :=
  match l with
  | [] => None
  | x :: l' => if byte_eqb x c then Some i else index_of c l' (i + 1)
  end.

(** [enc.decodeMap]: [0xff] marks a byte outside the alphabet. *)
Definition decodeMap (c : byte) : Z :=
  match index_of c encodeStd 0 with
  | Some i => i
  | None => 255
  end.

Definition EncodedLen (n : nat) : nat := ((n + 2) / 3 * 4)%nat.
Definition DecodedLen (n : nat) : nat := (n / 4 * 3)%nat.

(** [Encode]: three bytes give four characters; a remainder of one or
    two bytes is padded with [=]. *)
Fixpoint Encode (src : bytes) : bytes :=
  match src with
  | [] => []
  | [a] =>
      let val := Z.shiftl (Z_of_byte a) 16 in
      [encode (Z.land (Z.shiftr val 18) 63);
       encode (Z.land (Z.shiftr val 12) 63); padChar; padChar]
  | [a; b] =>
      let val := Z.lor (Z.shiftl (Z_of_byte a) 16) (Z.shiftl (Z_of_byte b) 8) in
      [encode (Z.land (Z.shiftr val 18) 63);
       encode (Z.land (Z.shiftr val 12) 63);
       encode (Z.land (Z.shiftr val 6) 63); padChar]
  | a :: b :: c :: rest =>
      let val := Z.lor (Z.lor (Z.shiftl (Z_of_byte a) 16)
                              (Z.shiftl (Z_of_byte b) 8)) (Z_of_byte c) in
      encode (Z.land (Z.shiftr val 18) 63)
      :: encode (Z.land (Z.shiftr val 12) 63)
      :: encode (Z.land (Z.shiftr val 6) 63)
      :: encode (Z.land val 63)
      :: Encode rest
  end.

Definition is_newline (c : byte) : bool :=
  byte_eqb c "010" || byte_eqb c "013".

Fixpoint skip_newlines (src : bytes) : bytes :=
  match src with
  | c :: rest => if is_newline c then skip_newlines rest else src
  | [] => []
  end.

(** The bytes of one quantum: [dbuf] holds [dlen] six-bit values (the
    missing ones are zero), of which [dlen - 1] bytes are produced. *)
Definition quantum (dbuf : list Z) : bytes :=
  let d := fun i => nth i dbuf 0 in
  let val := Z.lor (Z.lor (Z.lor (Z.shiftl (d 0%nat) 18) (Z.shiftl (d 1%nat) 12))
                          (Z.shiftl (d 2%nat) 6)) (d 3%nat) in
  take (length dbuf - 1)
    [byte_of_Z (Z.shiftr val 16); byte_of_Z (Z.shiftr val 8); byte_of_Z val].

(** [Decode], one input byte at a time, as [decodeQuantum] reads it:
    [dbuf] is the quantum collected so far.  Line breaks are skipped
    wherever they occur; padding ends the input.  The offset carried
    by [CorruptInputError] is not modelled. *)
Fixpoint decode_from (dbuf : list Z) (src : bytes) : result bytes :=
  match src with
  | [] =>
      match dbuf with
      | [] => Ok []
      | _ => Err base64_CorruptInputError
      end
  | c :: rest =>
      let out := decodeMap c in
      if negb (out =? 255) then
        let dbuf' := dbuf ++ [out] in
        if (length dbuf' =? 4)%nat then
          match decode_from [] rest with
          | Ok tl => Ok (quantum dbuf' ++ tl)
          | Err e => Err e
          end
        else decode_from dbuf' rest
      else if is_newline c then decode_from dbuf rest
      else if negb (byte_eqb c padChar) then Err base64_CorruptInputError
      else
        match length dbuf with
        | 2%nat =>
            match skip_newlines rest with
            | [] => Err base64_CorruptInputError
            | c2 :: rest2 =>
                if negb (byte_eqb c2 padChar) then Err base64_CorruptInputError
                else
                  match skip_newlines rest2 with
                  | [] => Ok (quantum dbuf)
                  | _ => Err base64_CorruptInputError
                  end
            end
        | 3%nat =>
            match skip_newlines rest with
            | [] => Ok (quantum dbuf)
            | _ => Err base64_CorruptInputError
            end
        | _ => Err base64_CorruptInputError
        end
  end.

Definition Decode (src : bytes) : result bytes := decode_from [] src.

(** A character of the alphabet. *)
Definition in_alphabet (c : byte) : Prop := decodeMap c <> 255.

(** The characters [Encode] writes: the alphabet and the padding. *)
Definition is_b64 (c : byte) : Prop := in_alphabet c \/ c = padChar.

(** A text without its line breaks. *)
Definition no_newlines (s : bytes) : bytes :=
  List.filter (fun c => negb (is_newline c)) s.

End base64.

(** ** The records of [sshbox.go] *)

Record boxPackage : Type := mkBoxPackage {
  LockedKey : bytes;
  Box : bytes
}.

Record sshPublicKey : Type := mkSshPublicKey {
  Algorithm : bytes;
  Modulus : bytes;
  Exponent : bytes
}.

(** ** encoding/asn1, at the type [boxPackage]

    A struct is a SEQUENCE and a [[]byte] an OCTET STRING.  An offset
    into a slice is modelled by the remaining bytes.  [Unmarshal]'s
    refusal of length fields of [2^31] and more is a bound on sizes and
    is left out, as the bound on slice lengths is. *)

Module asn1.

Definition ClassUniversal : Z := 0.
Definition TagOctetString : Z := 4.
Definition TagSequence : Z := 16.
Definition MaxInt32 : Z := 2147483647.

Record tagAndLength : Type := mkTagAndLength {
  class : Z;
  tag : Z;
  length : Z;
  isCompound : bool
}.

(** *** Marshal *)

Fixpoint lengthLength_loop (fuel : nat) (i : Z) : nat :=
  match fuel with
  | O => O
  | S fuel' => if 0 <? i then S (lengthLength_loop fuel' (Z.shiftr i 8)) else O
  end.

(** [i] is an [int]: at most eight iterations. *)
Definition lengthLength (i : Z) : nat := lengthLength_loop 8 i.

Fixpoint appendBase256Int (n : nat) (i : Z) : bytes :=
  match n with
  | O => []
  | S n' => byte_of_Z (Z.shiftr i (Z.of_nat n' * 8)) :: appendBase256Int n' i
  end.

Definition appendLength (i : Z) : bytes :=
  if 128 <=? i then
    let l := lengthLength i in
    byte_of_Z (Z.lor 128 (Z.of_nat l)) :: appendBase256Int l i
  else [byte_of_Z i].

Definition appendTagAndLength (t : tagAndLength) : bytes :=
  let b := Z.shiftl (class t) 6 in
  let b := if isCompound t then Z.lor b 32 else b in
  let b := Z.lor b (tag t) in     (* both tags used here are below 31 *)
  byte_of_Z b :: appendLength (length t).

Definition marshalBytes (v : bytes) : bytes :=
  appendTagAndLength
    (mkTagAndLength ClassUniversal TagOctetString (Z.of_nat (List.length v)) false)
  ++ v.

Definition Marshal (val : boxPackage) : result bytes :=
  let body := marshalBytes (LockedKey val) ++ marshalBytes (Box val) in
  Ok (appendTagAndLength
        (mkTagAndLength ClassUniversal TagSequence (Z.of_nat (List.length body)) true)
      ++ body).

(** *** Unmarshal *)

Fixpoint parseBase128Int_loop (shifted : nat) (ret64 : Z) (bs : bytes)
  : result (Z * bytes) :=
  match bs with
  | [] => Err (asn1_SyntaxError "truncated base 128 integer")
  | b :: rest =>
      if (shifted =? 5)%nat then
        Err (asn1_StructuralError "base 128 integer too large")
      else
        let ret64 := Z.shiftl ret64 7 in
        if (shifted =? 0)%nat && (Z_of_byte b =? 128) then
          Err (asn1_SyntaxError "integer is not minimally encoded")
        else
          let ret64 := Z.lor ret64 (Z.land (Z_of_byte b) 127) in
          if Z.land (Z_of_byte b) 128 =? 0 then
            if MaxInt32 <? ret64 then
              Err (asn1_StructuralError "base 128 integer too large")
            else Ok (ret64, rest)
          else parseBase128Int_loop (S shifted) ret64 rest
  end.

Definition parseBase128Int (bs : bytes) : result (Z * bytes) :=
  parseBase128Int_loop 0 0 bs.

Fixpoint parseLength_loop (numBytes : nat) (len : Z) (bs : bytes)
  : result (Z * bytes) :=
  match numBytes with
  | O => Ok (len, bs)
  | S n' =>
      match bs with
      | [] => Err (asn1_SyntaxError "truncated tag or length")
      | b :: rest =>
          let len := Z.lor (Z.shiftl len 8) (Z_of_byte b) in
          if len =? 0 then
            Err (asn1_StructuralError "superfluous leading zeros in length")
          else parseLength_loop n' len rest
      end
  end.

Definition parseLength (bs : bytes) : result (Z * bytes) :=
  match bs with
  | [] => Err (asn1_SyntaxError "truncated tag or length")
  | b :: rest =>
      if Z.land (Z_of_byte b) 128 =? 0 then Ok (Z.land (Z_of_byte b) 127, rest)
      else
        let numBytes := Z.land (Z_of_byte b) 127 in
        if numBytes =? 0 then
          Err (asn1_SyntaxError "indefinite length found (not DER)")
        else
          match parseLength_loop (Z.to_nat numBytes) 0 rest with
          | Err e => Err e
          | Ok (len, rest') =>
              if len <? 128 then Err (asn1_StructuralError "non-minimal length")
              else Ok (len, rest')
          end
  end.

Definition parseTagAndLength (bs : bytes) : result (tagAndLength * bytes) :=
  match bs with
  | [] => Err (errorString "asn1: internal error in parseTagAndLength")
  | b :: rest =>
      let cls := Z.shiftr (Z_of_byte b) 6 in
      let compound := Z.land (Z_of_byte b) 32 =? 32 in
      let tg := Z.land (Z_of_byte b) 31 in
      let after_tag :=
        if tg =? 31 then
          match parseBase128Int rest with
          | Err e => Err e
          | Ok (tg', rest') =>
              if tg' <? 31 then Err (asn1_SyntaxError "non-minimal tag")
              else Ok (tg', rest')
          end
        else Ok (tg, rest) in
      match after_tag with
      | Err e => Err e
      | Ok (tg, rest) =>
          match parseLength rest with
          | Err e => Err e
          | Ok (len, rest') => Ok (mkTagAndLength cls tg len compound, rest')
          end
      end
  end.

(** The common part of [parseField]: the header is read and compared
    with the expected universal tag, and the contents are cut out. *)
Definition parseHeader (expectedTag : Z) (compoundType : bool) (bs : bytes)
  : result (bytes * bytes) :=
  match bs with
  | [] => Err (asn1_SyntaxError "sequence truncated")
  | _ =>
      match parseTagAndLength bs with
      | Err e => Err e
      | Ok (t, rest) =>
          if negb (class t =? ClassUniversal) || negb (tag t =? expectedTag)
             || negb (eqb (isCompound t) compoundType) then
            Err (asn1_StructuralError "tags don't match")
          else if Z.of_nat (List.length rest) <? length t then
            Err (asn1_SyntaxError "data truncated")
          else
            Ok (take (Z.to_nat (length t)) rest, drop (Z.to_nat (length t)) rest)
      end
  end.

(** [parseField] at a field of type [[]byte]. *)
Definition parseField_bytes (bs : bytes) : result (bytes * bytes) :=
  parseHeader TagOctetString false bs.

(** [parseField] at [boxPackage]: the two fields are read from the
    contents of the SEQUENCE; bytes left over inside it are allowed. *)
Definition parseField_boxPackage (bs : bytes) : result (boxPackage * bytes) :=
  match parseHeader TagSequence true bs with
  | Err e => Err e
  | Ok (innerBytes, rest) =>
      match parseField_bytes innerBytes with
      | Err e => Err e
      | Ok (lockedKey, inner1) =>
          match parseField_bytes inner1 with
          | Err e => Err e
          | Ok (box, _) => Ok (mkBoxPackage lockedKey box, rest)
          end
      end
  end.

(** [Unmarshal(b, &pkgStruct)] returns the value and the bytes left. *)
Definition Unmarshal (b : bytes) : result (boxPackage * bytes) :=
  parseField_boxPackage b.

End asn1.

(** ** The package [bytes] *)

Definition nl : byte := "010".
Definition cr : byte := "013".
Definition tab : byte := "009".
Definition space : byte := " ".

Fixpoint HasPrefix (s prefix : bytes) : bool :=
  match prefix, s with
  | [], _ => true
  | p :: prefix', c :: s' => byte_eqb c p && HasPrefix s' prefix'
  | _ :: _, [] => false
  end.

Definition HasSuffix (s suffix : bytes) : bool :=
  HasPrefix (rev s) (rev suffix).

(** [bytes.Index]: the position of the first occurrence. *)
Fixpoint Index (s sep : bytes) : option nat :=
  if HasPrefix s sep then Some O
  else match s with
       | [] => None
       | _ :: s' => option_map S (Index s' sep)
       end.

Fixpoint IndexByte (s : bytes) (c : byte) : option nat :=
  match s with
  | [] => None
  | x :: s' => if byte_eqb x c then Some O else option_map S (IndexByte s' c)
  end.

Definition Cut (s sep : bytes) : option (bytes * bytes) :=
  match Index s sep with
  | Some i => Some (take i s, drop (i + List.length sep) s)
  | None => None
  end.

Fixpoint TrimLeftFunc (f : byte -> bool) (s : bytes) : bytes :=
  match s with
  | c :: s' => if f c then TrimLeftFunc f s' else s
  | [] => []
  end.

Definition TrimRightFunc (f : byte -> bool) (s : bytes) : bytes :=
  rev (TrimLeftFunc f (rev s)).

Definition TrimRight (s cutset : bytes) : bytes :=
  TrimRightFunc (fun c => existsb (byte_eqb c) cutset) s.

(** [bytes.TrimSpace], on the ASCII white space. *)
Definition isSpace (c : byte) : bool :=
  existsb (byte_eqb c) [tab; nl; "011"%byte; "012"%byte; cr; space].

Definition TrimSpace (s : bytes) : bytes :=
  TrimRightFunc isSpace (TrimLeftFunc isSpace s).

(** ** encoding/pem *)

Module pem.

Record Block : Type := mkBlock {
  Type_ : bytes;
  Headers : list (bytes * bytes);
  Bytes : bytes
}.

Definition pemStart : bytes := nl :: B "-----BEGIN ".
Definition pemEnd : bytes := nl :: B "-----END ".
Definition pemEndOfLine : bytes := B "-----".
Definition colon : bytes := B ":".
Definition pemLineLength : nat := 64.

Definition getLine (data : bytes) : bytes * bytes :=
  match IndexByte data nl with
  | None => (TrimRight data [space; tab], [])
  | Some i =>
      let i' :=
        if (0 <? i)%nat && byte_eqb (nth (i - 1) data x00) cr then (i - 1)%nat
        else i in
      (TrimRight (take i' data) [space; tab], drop (i + 1) data)
  end.

Definition removeSpacesAndTabs (data : bytes) : bytes :=
  List.filter (fun b => negb (byte_eqb b space || byte_eqb b tab)) data.

(** The header loop of [Decode]: [None] when the input ends inside
    it.  [fuel] is the number of lines that may still be read. *)
Fixpoint readHeaders (fuel : nat) (headers : list (bytes * bytes)) (rest : bytes)
  : option (list (bytes * bytes) * bytes) :=
  match fuel with
  | O => None
  | S fuel' =>
      match rest with
      | [] => None
      | _ =>
          let '(line, next) := getLine rest in
          match Cut line colon with
          | None => Some (headers, rest)
          | Some (key, val) =>
              readHeaders fuel' (headers ++ [(TrimSpace key, TrimSpace val)]) next
          end
      end
  end.

(** How one turn of the loop of [Decode] ends: with a block and the
    rest of the input, with [continue], or with [return nil, data]. *)
Inductive attempt : Type :=
| Found (p : Block) (rest : bytes)
| Continue (rest : bytes)
| GiveUp.

(** The search for the begin marker, which opens a turn of the loop. *)
Definition findStart (rest : bytes) : option bytes :=
  if HasPrefix rest (tl pemStart) then
    Some (drop (List.length pemStart - 1) rest)
  else
    match Cut rest pemStart with
    | Some (_, after) => Some after
    | None => None
    end.

(** The body of the loop of [Decode], after the begin marker. *)
Definition decodeBlock (rest : bytes) : attempt :=
  let '(typeLine, rest) := getLine rest in
  if negb (HasSuffix typeLine pemEndOfLine) then Continue rest
  else
    let typeLine :=
      take (List.length typeLine - List.length pemEndOfLine) typeLine in
    match readHeaders (S (List.length rest)) [] rest with
    | None => GiveUp
    | Some (headers, rest) =>
        let ends :=
          if (List.length headers =? 0)%nat && HasPrefix rest (tl pemEnd)
          then Some (O, (List.length pemEnd - 1)%nat)
          else
            match Index rest pemEnd with
            | Some i => Some (i, (i + List.length pemEnd)%nat)
            | None => None
            end in
        match ends with
        | None => Continue rest
        | Some (endIndex, endTrailerIndex) =>
            let endTrailer := drop endTrailerIndex rest in
            let endTrailerLen :=
              (List.length typeLine + List.length pemEndOfLine)%nat in
            if (List.length endTrailer <? endTrailerLen)%nat then Continue rest
            else
              let restOfEndLine := drop endTrailerLen endTrailer in
              let endTrailer := take endTrailerLen endTrailer in
              if negb (HasPrefix endTrailer typeLine)
                 || negb (HasSuffix endTrailer pemEndOfLine) then Continue rest
              else if negb (List.length (fst (getLine restOfEndLine)) =? 0)%nat
              then Continue rest
              else
                match base64.Decode (removeSpacesAndTabs (take endIndex rest)) with
                | Err _ => Continue rest
                | Ok bs =>
                    Found (mkBlock typeLine headers bs)
                          (snd (getLine
                                  (drop (endIndex + List.length pemEnd - 1) rest)))
                end
        end
    end.

(** The loop of [Decode]; every [continue] of the Go code is a
    recursive call on what is left of the input. *)
Fixpoint decode_loop (fuel : nat) (data rest : bytes) : option Block * bytes :=
  match fuel with
  | O => (None, data)
  | S fuel' =>
      match findStart rest with
      | None => (None, data)
      | Some rest =>
          match decodeBlock rest with
          | Found p rest' => (Some p, rest')
          | Continue rest' => decode_loop fuel' data rest'
          | GiveUp => (None, data)
          end
      end
  end.

(** [Decode] finds the next block in [data]; every turn of the loop
    consumes a begin marker, so [length data] turns are enough. *)
Definition Decode (data : bytes) : option Block * bytes :=
  decode_loop (S (List.length data)) data data.

(** The [lineBreaker]: 64 characters to a line. *)
Fixpoint breakLines (fuel : nat) (s : bytes) : bytes :=
  match fuel with
  | O => []
  | S fuel' =>
      match s with
      | [] => []
      | _ => take pemLineLength s ++ nl :: breakLines fuel' (drop pemLineLength s)
      end
  end.

(** [EncodeToMemory]; [nil] when a header key holds a colon.  The
    headers are written in the order of the list. *)
Definition EncodeToMemory (b : Block) : bytes :=
  if existsb (fun kv => is_Some_bool (Index (fst kv) colon)) (Headers b) then []
  else
    tl pemStart ++ Type_ b ++ B "-----" ++ [nl]
    ++ (match Headers b with
        | [] => []
        | hs => concat (map (fun kv => fst kv ++ B ": " ++ snd kv ++ [nl]) hs) ++ [nl]
        end)
    ++ (let enc := base64.Encode (Bytes b) in breakLines (List.length enc) enc)
    ++ tl pemEnd ++ Type_ b ++ B "-----" ++ [nl].

Definition dash : byte := "-".

(** A line: no line feed in it, and nothing at its end that [getLine]
    would trim. *)
Definition is_line (l : bytes) : Prop :=
  Forall (fun x => x <> nl) l
  /\ forall l' c, l = l' ++ [c] -> c <> cr /\ c <> space /\ c <> tab.

(** The characters of an encoded body: the base64 ones and line
    feeds. *)
Definition is_body (c : byte) : Prop := base64.is_b64 c \/ c = nl.

End pem.

(** ** io, encoding/binary, math/big, regexp *)

(** [io.ReadFull(buf, p)] for a [bytes.Buffer] holding [buf] and a
    destination of [n] bytes: the bytes read (or the error) and what is
    left in the buffer.  Nothing is read into an empty destination. *)
Definition io_ReadFull (buf : bytes) (n : nat) : result bytes * bytes :=
  if (n =? 0)%nat then (Ok [], buf)
  else if (List.length buf =? 0)%nat then (Err io_EOF, buf)
  else if (List.length buf <? n)%nat then (Err io_ErrUnexpectedEOF, [])
  else (Ok (take n buf), drop n buf).

Definition to_int32 (u : Z) : Z :=
  if u <? 2 ^ 31 then u else u - 2 ^ 32.

(** [binary.Read(buf, binary.BigEndian, &length)] with [length int32]. *)
Definition binary_Read_int32 (buf : bytes) : result Z * bytes :=
  match io_ReadFull buf 4 with
  | (Ok bs, buf') => (Ok (to_int32 (be_value bs)), buf')
  | (Err e, buf') => (Err e, buf')
  end.

(** [new(big.Int).SetBytes(b)] *)
Definition big_SetBytes (b : bytes) : Z := be_value b.

(** [x.Int64()] for [x >= 0]: the low 64 bits, read as a signed number;
    [int(...)] of it is the same number, [int] being 64 bits wide. *)
Definition big_Int64 (x : Z) : Z :=
  let low64 := Z.land x (2 ^ 64 - 1) in
  if low64 <? 2 ^ 63 then low64 else low64 - 2 ^ 64.

(** [\s] of the regular expressions: [[\t\n\f\r ]]. *)
Definition regexp_isSpace (c : byte) : bool :=
  existsb (byte_eqb c) [tab; nl; "012"%byte; cr; space].

Fixpoint takeWhile (f : byte -> bool) (s : bytes) : bytes :=
  match s with
  | c :: s' => if f c then c :: takeWhile f s' else []
  | [] => []
  end.

(** [pubkeyRegexp.ReplaceAll(src, []byte("$1"))] for
    [pubkeyRegexp = "^ssh-rsa (\\S+).*$"]: the expression is anchored at
    both ends of the text and [.] does not match a line feed, so it
    matches the whole text or nothing; [\S+] is greedy. *)
Definition pubkeyRegexp_ReplaceAll (src : bytes) : bytes :=
  if HasPrefix src (B "ssh-rsa ") then
    let rest := drop 8 src in
    let group1 := takeWhile (fun c => negb (regexp_isSpace c)) rest in
    let trailer := drop (List.length group1) rest in
    if negb (List.length group1 =? 0)%nat && negb (is_Some_bool (IndexByte trailer nl))
    then group1
    else src
  else src.

(** [remoteCheck.MatchString(s)] for [remoteCheck = "^https?://"]. *)
Definition remoteCheck_MatchString (s : string) : bool :=
  HasPrefix (B s) (B "http://") || HasPrefix (B s) (B "https://").

(** [base64.StdEncoding.Decode(dst, src)]: the decoded bytes are written
    over the beginning of [dst], the rest of [dst] stays as it was.
    When decoding fails the callers do not look at [dst]. *)
Definition base64_Decode_into (dst src : bytes) : bytes * option error :=
  match base64.Decode src with
  | Ok d => (d ++ drop (List.length d) dst, None)
  | Err e => (dst, Some e)
  end.

(** ** The wire format of a public key

    [ssh-keygen] writes the key as three strings, each a four-byte
    big-endian length and the bytes. *)

Definition uint32_be (n : Z) : bytes :=
  [byte_of_Z (Z.shiftr n 24); byte_of_Z (Z.shiftr n 16);
   byte_of_Z (Z.shiftr n 8); byte_of_Z n].

Definition sshString (s : bytes) : bytes :=
  uint32_be (Z.of_nat (List.length s)) ++ s.

Definition sshKeyBlob (algorithm exponent modulus : bytes) : bytes :=
  sshString algorithm ++ sshString exponent ++ sshString modulus.

(** Bit [i mod 8] of byte [i / 8] of [bs], flipped. *)
Fixpoint flip_bit (i : nat) (bs : bytes) : bytes :=
  match bs with
  | [] => []
  | b :: bs' =>
      if (i <? 8)%nat then
        byte_of_Z (Z.lxor (Z_of_byte b) (Z.shiftl 1 (Z.of_nat i))) :: bs'
      else b :: flip_bit (i - 8) bs'
  end.

(** ** The outside world *)

Record PublicKey : Type := mkPublicKey {
  N : Z;
  E : Z
}.

(** What a GET of a URL gives: the body and how reading it ended. *)
Record HttpResponse : Type := mkHttpResponse {
  Body : bytes;
  BodyErr : option error
}.

Inductive Line : Type :=
| Msg (text : string)                   (* fmt.Println(text) *)
| MsgErr (text : string) (e : error).   (* fmt.Println(text, e.Error()) *)

Record World : Type := mkWorld {
  files : gmap string bytes;             (* the local files that can be read *)
  readonly : gset string;                (* paths that cannot be written *)
  remote : gmap string HttpResponse;     (* what the network answers *)
  random : bytes;                        (* what [rand.Reader] still holds *)
  stdout : list Line
}.

Inductive outcome (A : Type) : Type :=
| Return (a : A)
| Exit (code : Z)                       (* os.Exit *)
| Panic (msg : string).                 (* run-time panic *)
Arguments Return {A} a.
Arguments Exit {A} code.
Arguments Panic {A} msg.

Definition M (A : Type) : Type := World -> outcome A * World.

Definition ret {A} (a : A) : M A := fun w => (Return a, w).

Definition bind {A B} (m : M A) (k : A -> M B) : M B :=
  fun w =>
    match m w with
    | (Return a, w') => k a w'
    | (Exit c, w') => (Exit c, w')
    | (Panic s, w') => (Panic s, w')
    end.

#[global] Instance M_ret : MRet M := @ret.
#[global] Instance M_bind : MBind M := fun A B k m => bind m k.

(** The world after a line has been printed. *)
Definition printed (l : Line) (w : World) : World :=
  mkWorld (files w) (readonly w) (remote w) (random w) (stdout w ++ [l]).

Definition Println (l : Line) : M unit :=
  fun w => (Return tt, printed l w).

Definition os_Exit {A} (code : Z) : M A := fun w => (Exit code, w).

Definition panic {A} (msg : string) : M A := fun w => (Panic msg, w).

(** [make([]byte, length)]: a negative length is a run-time panic. *)
Definition make_bytes (length : Z) : M bytes :=
  if length <? 0 then panic "makeslice: len out of range"
  else ret (repeat x00 (Z.to_nat length)).

Definition ioutil_ReadFile (name : string) : M (bytes * option error) :=
  fun w =>
    match files w !! name with
    | Some d => (Return (d, None), w)
    | None => (Return ([], Some (os_PathError "open" name)), w)
    end.

(** The world after a file has been written. *)
Definition written (name : string) (data : bytes) (w : World) : World :=
  mkWorld (<[name := data]> (files w)) (readonly w) (remote w) (random w) (stdout w).

Definition ioutil_WriteFile (name : string) (data : bytes) : M (option error) :=
  fun w =>
    if bool_decide (name ∈ readonly w) then
      (Return (Some (os_PathError "open" name)), w)
    else (Return None, written name data w).

Definition http_Get (url : string) : M (result HttpResponse) :=
  fun w =>
    match remote w !! url with
    | Some resp => (Return (Ok resp), w)
    | None => (Return (Err (net_Error url)), w)
    end.

Definition ioutil_ReadAll (resp : HttpResponse) : M (bytes * option error) :=
  ret (Body resp, BodyErr resp).

(** The cryptographic libraries: [crypto/rsa] with OAEP over SHA-256 and
    an empty label, [crypto/x509], and cryptobox's [secretbox].  What
    draws on [rand.Reader] takes what the reader holds and returns what
    is left of it.  [rsa.DecryptOAEP] is given the reader for blinding
    only: its result does not depend on it, and what it draws is not
    modelled. *)
Class Crypto : Type := {
  PrivateKey : Type;
  x509_ParsePKCS1PrivateKey : bytes -> result PrivateKey;
  rsa_EncryptOAEP : PublicKey -> bytes -> bytes -> result bytes * bytes;
  rsa_DecryptOAEP : PrivateKey -> bytes -> result bytes;
  secretbox_GenerateKey : bytes -> result bytes * bytes;
  secretbox_Seal : bytes -> bytes -> bytes -> option bytes * bytes;
  secretbox_Open : bytes -> bytes -> option bytes
}.

(** The world in which [rand.Reader] holds [r]. *)
Definition drawn (r : bytes) (w : World) : World :=
  mkWorld (files w) (readonly w) (remote w) r (stdout w).

(** Running a step that draws on [rand.Reader]. *)
Definition with_random {A} (f : bytes -> A * bytes) : M A :=
  fun w => let '(a, r) := f (random w) in (Return a, drawn r w).

(** ** sshbox.go *)

Section sshbox.

Context `{Crypto}.

(** [fetchKey] retrieves the raw data for a key, either via file or
    an HTTP get.  Both [kb] and [err] are returned. *)
Definition fetchKey (name : string) (local : bool) : M (bytes * option error) :=
  if local then
    '(kb, err) ← ioutil_ReadFile name;
    match err with
    | Some e => Println (MsgErr "[!]" e);; mret (kb, err)
    | None => mret (kb, err)
    end
  else
    r ← http_Get name;
    match r with
    | Err e =>
        Println (MsgErr "[!] failed to fetch key:" e);; mret ([], Some e)
    | Ok resp => ioutil_ReadAll resp
    end.

(** One length-prefixed field of the key blob, [sshbox.go] lines
    130-141 (and again 148-158 and 160-170): [binary.Read] of the
    [int32] length, [make([]byte, length)], [io.ReadFull]. *)
Definition readField (buf : bytes) : M (result (bytes * bytes)) :=
  match binary_Read_int32 buf with
  | (Err e, _) =>
      Println (MsgErr "[!] failed to read public key:" e);; mret (Err e)
  | (Ok length, buf) =>
      field ← make_bytes length;
      match io_ReadFull buf (List.length field) with
      | (Err e, _) =>
          Println (MsgErr "[!] failed to decode public key:" e);; mret (Err e)
      | (Ok field, buf) => mret (Ok (field, buf))
      end
  end.

(** [loadPublicKey] from [buf := bytes.NewBuffer(kb)] on, lines
    126-175. *)
Definition decodePublicKey (kb : bytes) : M (result PublicKey) :=
  let buf := kb in
  r ← readField buf;
  match r with
  | Err e => mret (Err e)
  | Ok (algorithm, buf) =>
      if negb (bytes_eqb algorithm (B "ssh-rsa")) then
        Println (Msg "[!] invalid public key.");;
        mret (Err (errorString "invalid public key"))
      else
        r ← readField buf;
        match r with
        | Err e => mret (Err e)
        | Ok (exponent, buf) =>
            r ← readField buf;
            match r with
            | Err e => mret (Err e)
            | Ok (modulus, buf) =>
                let pubKey := mkSshPublicKey algorithm modulus exponent in
                mret (Ok (mkPublicKey (big_SetBytes (Modulus pubKey))
                                      (big_Int64 (big_SetBytes (Exponent pubKey)))))
            end
        end
  end.

(** Decode a byte slice into an RSA public key.  The [err] of
    [fetchKey] is assigned and then overwritten by the one of
    [Decode]; [kb] keeps its full length, whatever [Decode] wrote. *)
Definition loadPublicKey (name : string) (local : bool) : M (result PublicKey) :=
  '(kb64, _) ← fetchKey name local;
  let kb64 := pubkeyRegexp_ReplaceAll kb64 in
  let kb := repeat x00 (base64.DecodedLen (List.length kb64)) in
  match base64_Decode_into kb kb64 with
  | (_, Some e) =>
      Println (MsgErr "[!] couldn't decode public key:" e);; mret (Err e)
  | (kb, None) => decodePublicKey kb
  end.

(** Decode a byte slice into an RSA private key. *)
Definition loadPrivateKey (name : string) : M (result PrivateKey) :=
  '(kb, _) ← fetchKey name true;
  let '(block, _) := pem.Decode kb in
  match block with
  | None => Println (Msg "[!] couldn't decode key file.");; os_Exit 1
  | Some block =>
      if negb (bytes_eqb (pem.Type_ block) (B "RSA PRIVATE KEY")) then
        Println (Msg "[!] key is not a private key.");; os_Exit 1
      else mret (x509_ParsePKCS1PrivateKey (pem.Bytes block))
  end.

(** [packageBox] actually handles boxing.  It can output either
    PEM-encoded or DER-encoded boxes. *)
Definition packageBox (lockedKey box : bytes) (armour : bool) : M (result bytes) :=
  let pkgBox := mkBoxPackage lockedKey box in
  match asn1.Marshal pkgBox with
  | Err e => Println (Msg "[!] couldn't package the box");; mret (Err e)
  | Ok pkg =>
      if armour then
        let block := pem.mkBlock (B "SSHBOX ENCRYPTED FILE") [] pkg in
        mret (Ok (pem.EncodeToMemory block))
      else mret (Ok pkg)
  end.

(** [unpackageBox] handles the loading of a box; it first attempts to
    decode the box as a DER-encoded box.  If this fails, it attempts
    to decode the box as a PEM-encoded box. *)
Definition unpackageBox (pkg : bytes) : M (result (bytes * bytes)) :=
  match asn1.Unmarshal pkg with
  | Ok (pkgStruct, _) => mret (Ok (LockedKey pkgStruct, Box pkgStruct))
  | Err _ =>
      let '(block, _) := pem.Decode pkg in
      match block with
      | None =>
          Println (Msg "[!] invalid box.");; mret (Err (errorString "invalid box"))
      | Some block =>
          if negb (bytes_eqb (pem.Type_ block) (B "SSHBOX ENCRYPTED FILE")) then
            Println (Msg "[!] invalid box.");; mret (Err (errorString "invalid box"))
          else
            match asn1.Unmarshal (pem.Bytes block) with
            | Ok (pkgStruct, _) => mret (Ok (LockedKey pkgStruct, Box pkgStruct))
            | Err e => mret (Err e)
            end
      end
  end.

(** Generate a random box key, encrypt the key to the RSA public key,
    package the box appropriately, and write it out to a file. *)
Definition encrypt (in_ out keyfile : string) (local armour : bool)
  : M (option error) :=
  r ← loadPublicKey keyfile local;
  match r with
  | Err e => mret (Some e)
  | Ok pub =>
      r ← with_random secretbox_GenerateKey;
      match r with
      | Err e =>
          Println (Msg "[!] failed to generate the box key.");; mret (Some e)
      | Ok boxKey =>
          r ← with_random (rsa_EncryptOAEP pub boxKey);
          match r with
          | Err e =>
              Println (MsgErr "[!] RSA encryption failed:" e);; mret (Some e)
          | Ok lockedKey =>
              '(message, err) ← ioutil_ReadFile in_;
              match err with
              | Some e => Println (MsgErr "[!]" e);; mret (Some e)
              | None =>
                  r ← with_random (secretbox_Seal message boxKey);
                  match r with
                  | None =>
                      Println (Msg "[!] failed to seal the message.");;
                      mret (Some (errorString "sealing failure"))
                  | Some box =>
                      r ← packageBox lockedKey box armour;
                      match r with
                      | Err e => mret (Some e)
                      | Ok pkg =>
                          err ← ioutil_WriteFile out pkg;
                          match err with
                          | Some e => Println (MsgErr "[!]" e);; mret (Some e)
                          | None => mret None
                          end
                      end
                  end
              end
          end
      end
  end.

(** Decrypt loads the box, recovers the key using the RSA private
    key, open the box, and write the message to a file. *)
Definition decrypt (in_ out keyfile : string) (armour : bool)
  : M (option error) :=
  r ← loadPrivateKey keyfile;
  match r with
  | Err e => mret (Some e)
  | Ok key =>
      '(pkg, err) ← ioutil_ReadFile in_;
      match err with
      | Some e => Println (MsgErr "[!]" e);; mret (Some e)
      | None =>
          r ← unpackageBox pkg;
          match r with
          | Err e => mret (Some e)
          | Ok (lockedKey, box) =>
              match rsa_DecryptOAEP key lockedKey with
              | Err e =>
                  Println (MsgErr "[!] RSA decryption failed:" e);; mret (Some e)
              | Ok boxKey =>
                  match secretbox_Open box boxKey with
                  | None =>
                      Println (Msg "[!] failed to open box.");;
                      mret (Some (errorString "opening box failed"))
                  | Some message => ioutil_WriteFile out message
                  end
              end
          end
      end
  end.

(** The command line after [flag.Parse()]. *)
Record Flags : Type := mkFlags {
  flArmour : bool;
  flDecrypt : bool;
  flEncrypt : bool;
  flKeyFile : string;
  Args : list string;
  Arg0 : string
}.

Definition main (fl : Flags) : M unit :=
  if flDecrypt fl && flEncrypt fl then
    Println (Msg "[!] only one of -d or -e can be specified!");; os_Exit 1
  else
    match Args fl with
    | [source; target] =>
        if String.eqb (flKeyFile fl) "" then
          Println (Msg ("[!] no key was specified!" +:+ String (Ascii.ascii_of_nat 10) ""));; os_Exit 1
        else
          let remote := remoteCheck_MatchString (flKeyFile fl) in
          (if remote then
             if flDecrypt fl then
               Println (Msg "[+] remotely fetching private keys is not allowed.");;
               os_Exit 1
             else Println (Msg "[+] will fetch key")
           else mret tt);;
          if flEncrypt fl then
            err ← encrypt source target (flKeyFile fl) (negb remote) (flArmour fl);
            match err with
            | Some _ => Println (Msg "[!] failed.");; os_Exit 1
            | None => Println (Msg "[+] success");; os_Exit 0
            end
          else
            err ← decrypt source target (flKeyFile fl) (flArmour fl);
            match err with
            | Some _ => Println (Msg "[!] failed.");; os_Exit 1
            | None => Println (Msg "[+] success");; os_Exit 0
            end
    | _ =>
        Println (Msg "[!] source and target must both be specified.");;
        Println (Msg (String (Ascii.ascii_of_nat 9) (Arg0 fl +:+ " [options] source target")));;
        os_Exit 1
    end.

End sshbox.

(** ** What a step leaves of the world *)

(** [w'] is [w] with more lines printed, at most. *)
Definition same_but_stdout (w w' : World) : Prop :=
  files w' = files w /\ readonly w' = readonly w /\ remote w' = remote w
  /\ random w' = random w.

(** [m] only prints. *)
Definition only_prints {A} (m : M A) : Prop :=
  forall w o w', m w = (o, w') -> same_but_stdout w w'.




(** ** What is asked of the cryptographic libraries *)



(** [secretbox.Open] refuses a sealed box in which one bit was
    flipped. *)
Definition secretbox_detects_flips `{Crypto} : Prop :=
  forall message key r box r' i,
    secretbox_Seal message key r = (Some box, r') ->
    (i < 8 * List.length box)%nat ->
    secretbox_Open (flip_bit i box) key = None.

(** ** A small instance of the libraries, to run the program on

    The key is a number, OAEP prefixes the message with the low byte of
    the modulus and a seed byte, and a box holds the message twice. *)

Module toy.

Definition ParsePKCS1PrivateKey (der : bytes) : result Z :=
  match der with
  | [] => Err x509_ParseError
  | _ => Ok (be_value der)
  end.

Definition EncryptOAEP (pub : PublicKey) (msg r : bytes) : result bytes * bytes :=
  if (190 <? List.length msg)%nat then (Err rsa_ErrMessageTooLong, r)
  else
    match r with
    | [] => (Err rand_Error, r)
    | seed :: r' => (Ok (byte_of_Z (N pub) :: seed :: msg), r')
    end.

Definition DecryptOAEP (priv : Z) (c : bytes) : result bytes :=
  match c with
  | n :: _ :: msg =>
      if byte_eqb n (byte_of_Z priv) then Ok msg else Err rsa_ErrDecryption
  | _ => Err rsa_ErrDecryption
  end.

Definition GenerateKey (r : bytes) : result bytes * bytes :=
  if (List.length r <? 4)%nat then (Err rand_Error, r)
  else (Ok (take 4 r), drop 4 r).

Definition Seal (message key r : bytes) : option bytes * bytes :=
  (Some (message ++ message), r).

Definition Open (box key : bytes) : option bytes :=
  let n := (List.length box / 2)%nat in
  if bytes_eqb (take n box ++ take n box) box then Some (take n box) else None.

Definition crypto : Crypto := {|
  PrivateKey := Z;
  x509_ParsePKCS1PrivateKey := ParsePKCS1PrivateKey;
  rsa_EncryptOAEP := EncryptOAEP;
  rsa_DecryptOAEP := DecryptOAEP;
  secretbox_GenerateKey := GenerateKey;
  secretbox_Seal := Seal;
  secretbox_Open := Open
|}.

(** A key pair with modulus [0xC5 0x01], and the files of a run. *)
Definition modulus : bytes := ["197"; "001"]%byte.
Definition exponent : bytes := ["001"; "000"; "001"]%byte.

Definition id_rsa_pub : bytes :=
  B "ssh-rsa " ++ base64.Encode (sshKeyBlob (B "ssh-rsa") exponent modulus)
  ++ B " user@host".

Definition id_rsa : bytes :=
  pem.EncodeToMemory (pem.mkBlock (B "RSA PRIVATE KEY") [] modulus).

Definition world : World :=
  mkWorld (<["id_rsa.pub" := id_rsa_pub]>
           (<["id_rsa" := id_rsa]>
            (<["notes.txt" := B "hello world"]> ∅)))
          ∅ ∅ (B "0123456789abcdef") [].

End toy.

(** * Properties of the library models *)

(** ** Bytes and bit arithmetic *)

Lemma Z_of_byte_range (b : byte) : 0 <= Z_of_byte b < 256.
Proof.
  unfold Z_of_byte. pose proof (Byte.to_N_bounded b). lia.
Qed.

Lemma byte_of_Z_of_byte (b : byte) : byte_of_Z (Z_of_byte b) = b.
Proof.
  unfold byte_of_Z. pose proof (Z_of_byte_range b) as Hr.
  rewrite Z.mod_small by lia. unfold Z_of_byte.
  rewrite N2Z.id, Byte.of_to_N. reflexivity.
Qed.

Lemma byte_of_Z_mod (z : Z) (b : byte) :
  z mod 256 = Z_of_byte b -> byte_of_Z z = b.
Proof.
  intros Hz. unfold byte_of_Z. rewrite Hz. unfold Z_of_byte.
  rewrite N2Z.id, Byte.of_to_N. reflexivity.
Qed.

Lemma Z_of_byte_of_Z (z : Z) : Z_of_byte (byte_of_Z z) = z mod 256.
Proof.
  unfold byte_of_Z, Z_of_byte.
  assert (Hr : 0 <= z mod 256 < 256) by (apply Z.mod_pos_bound; lia).
  destruct (Byte.of_N (Z.to_N (z mod 256))) as [b|] eqn:Hb.
  - apply Byte.to_of_N in Hb. rewrite Hb. lia.
  - apply Byte.of_N_None_iff in Hb. lia.
Qed.

Lemma Z_of_byte_inj (a b : byte) : Z_of_byte a = Z_of_byte b -> a = b.
Proof.
  intros Hab. rewrite <- (byte_of_Z_of_byte a), <- (byte_of_Z_of_byte b).
  now rewrite Hab.
Qed.

Lemma byte_eqb_eq (a b : byte) : byte_eqb a b = true <-> a = b.
Proof.
  unfold byte_eqb. split.
  - apply Byte.byte_dec_bl.
  - apply Byte.byte_dec_lb.
Qed.

Lemma byte_eqb_refl (a : byte) : byte_eqb a a = true.
Proof. now apply byte_eqb_eq. Qed.

Lemma byte_eqb_neq (a b : byte) : byte_eqb a b = false <-> a <> b.
Proof.
  rewrite <- byte_eqb_eq. destruct (byte_eqb a b); split; congruence.
Qed.

Lemma bytes_eqb_eq (a b : bytes) : bytes_eqb a b = true <-> a = b.
Proof. unfold bytes_eqb. apply bool_decide_eq_true. Qed.

Lemma bytes_eqb_neq (a b : bytes) : bytes_eqb a b = false <-> a <> b.
Proof. unfold bytes_eqb. apply bool_decide_eq_false. Qed.

(** [x << n | y] is [x * 2^n + y] when [y] fits in [n] bits. *)
Lemma lor_shiftl_add (x y n : Z) :
  0 <= n -> 0 <= y < 2 ^ n -> Z.lor (Z.shiftl x n) y = x * 2 ^ n + y.
Proof.
  intros Hn Hy. rewrite Z.shiftl_mul_pow2 by lia.
  symmetry. apply Z.add_nocarry_lor.
  apply Z.bits_inj'. intros i Hi. rewrite Z.land_spec, Z.bits_0.
  destruct (Z.lt_ge_cases i n) as [Hlt|Hge].
  - rewrite Z.mul_pow2_bits_low by lia. reflexivity.
  - destruct (Z.eq_dec y 0) as [->|Hy0].
    + rewrite Z.bits_0. apply andb_false_r.
    + rewrite (Z.bits_above_log2 y i); [apply andb_false_r|lia|].
      apply Z.log2_lt_pow2; [lia|].
      apply Z.lt_le_trans with (2 ^ n); [lia|].
      apply Z.pow_le_mono_r; lia.
Qed.

Lemma land_ones_mod (x k : Z) :
  0 <= k -> Z.land x (2 ^ k - 1) = x mod 2 ^ k.
Proof.
  intros Hk. rewrite <- Z.land_ones by lia. f_equal.
  rewrite Z.ones_equiv. lia.
Qed.

Lemma be_fold_app (acc : Z) (a b : bytes) :
  be_fold acc (a ++ b) = be_fold (be_fold acc a) b.
Proof. unfold be_fold. apply fold_left_app. Qed.

Lemma be_fold_cons (acc : Z) (c : byte) (bs : bytes) :
  be_fold acc (c :: bs) = be_fold (acc * 256 + Z_of_byte c) bs.
Proof.
  unfold be_fold. simpl. f_equal.
  pose proof (Z_of_byte_range c).
  rewrite (lor_shiftl_add acc (Z_of_byte c) 8); lia.
Qed.

Lemma be_fold_nonneg (bs : bytes) (acc : Z) : 0 <= acc -> 0 <= be_fold acc bs.
Proof.
  revert acc. induction bs as [|c bs IH]; intros acc Hacc; [exact Hacc|].
  rewrite be_fold_cons. apply IH. pose proof (Z_of_byte_range c). lia.
Qed.

Lemma be_fold_bound (bs : bytes) (acc : Z) :
  0 <= acc ->
  acc * 256 ^ Z.of_nat (List.length bs) <= be_fold acc bs
  < (acc + 1) * 256 ^ Z.of_nat (List.length bs).
Proof.
  revert acc. induction bs as [|c bs IH]; intros acc Hacc.
  - simpl. unfold be_fold. simpl. lia.
  - rewrite be_fold_cons. pose proof (Z_of_byte_range c) as Hc.
    specialize (IH (acc * 256 + Z_of_byte c) ltac:(lia)).
    cbn [List.length]. rewrite Nat2Z.inj_succ, Z.pow_succ_r by lia.
    nia.
Qed.

Lemma lor_mul_pow2_add (x y n : Z) :
  0 <= n -> 0 <= y < 2 ^ n -> Z.lor (x * 2 ^ n) y = x * 2 ^ n + y.
Proof.
  intros Hn Hy. rewrite <- (lor_shiftl_add x y n Hn Hy).
  now rewrite Z.shiftl_mul_pow2.
Qed.

Lemma Z_below_forallb (P : Z -> bool) (n : nat) :
  forallb P (map Z.of_nat (seq 0 n)) = true ->
  forall i, 0 <= i < Z.of_nat n -> P i = true.
Proof.
  intros Hall i Hi. rewrite forallb_forall in Hall. apply Hall.
  apply in_map_iff. exists (Z.to_nat i). split; [lia|].
  apply in_seq. lia.
Qed.

(** ** base64 *)

Module base64_facts.
Import base64.

Lemma decodeMap_encode (i : Z) : 0 <= i < 64 -> decodeMap (encode i) = i.
Proof.
  intros Hi. apply Z.eqb_eq.
  apply (Z_below_forallb (fun i => decodeMap (encode i) =? i) 64);
    [vm_compute; reflexivity | lia].
Qed.

Lemma encode_in_alphabet (i : Z) : 0 <= i < 64 -> in_alphabet (encode i).
Proof.
  intros Hi. unfold in_alphabet. rewrite decodeMap_encode by lia. lia.
Qed.

Lemma in_alphabet_not (c x : byte) :
  decodeMap x = 255 -> in_alphabet c -> c <> x.
Proof. intros Hx Hc ->. exact (Hc Hx). Qed.

Lemma is_b64_not (c x : byte) :
  decodeMap x = 255 -> x <> padChar -> is_b64 c -> c <> x.
Proof.
  intros Hx Hp [Hc| ->]; [now apply in_alphabet_not | congruence].
Qed.

Lemma is_b64_not_newline (c : byte) : is_b64 c -> is_newline c = false.
Proof.
  intros Hc. unfold is_newline.
  rewrite (proj2 (byte_eqb_neq c "010")), (proj2 (byte_eqb_neq c "013"));
    [reflexivity | | ]; apply is_b64_not; auto; discriminate.
Qed.

Lemma sextet_range (v k : Z) : 0 <= Z.land (Z.shiftr v k) 63 < 64.
Proof.
  change 63 with (2 ^ 6 - 1). rewrite land_ones_mod by lia.
  apply Z.mod_pos_bound. lia.
Qed.

Lemma sextet_div (v k : Z) :
  0 <= k -> Z.land (Z.shiftr v k) 63 = (v / 2 ^ k) mod 64.
Proof.
  intros Hk. change 63 with (2 ^ 6 - 1). rewrite land_ones_mod by lia.
  now rewrite Z.shiftr_div_pow2.
Qed.

Lemma val3 (a b c : Z) :
  0 <= a -> 0 <= b < 256 -> 0 <= c < 256 ->
  Z.lor (Z.lor (Z.shiftl a 16) (Z.shiftl b 8)) c = a * 65536 + b * 256 + c.
Proof.
  intros Ha Hb Hc. rewrite !Z.shiftl_mul_pow2 by lia.
  rewrite (lor_mul_pow2_add a (b * 2 ^ 8) 16) by lia.
  replace (a * 2 ^ 16 + b * 2 ^ 8) with ((a * 2 ^ 8 + b) * 2 ^ 8) by lia.
  rewrite lor_mul_pow2_add by lia. lia.
Qed.

Lemma val4 (d0 d1 d2 d3 : Z) :
  0 <= d0 -> 0 <= d1 < 64 -> 0 <= d2 < 64 -> 0 <= d3 < 64 ->
  Z.lor (Z.lor (Z.lor (Z.shiftl d0 18) (Z.shiftl d1 12)) (Z.shiftl d2 6)) d3
  = d0 * 262144 + d1 * 4096 + d2 * 64 + d3.
Proof.
  intros H0 H1 H2 H3. rewrite !Z.shiftl_mul_pow2 by lia.
  rewrite (lor_mul_pow2_add d0 (d1 * 2 ^ 12) 18) by lia.
  replace (d0 * 2 ^ 18 + d1 * 2 ^ 12) with ((d0 * 2 ^ 6 + d1) * 2 ^ 12) by lia.
  rewrite (lor_mul_pow2_add _ (d2 * 2 ^ 6) 12) by lia.
  replace ((d0 * 2 ^ 6 + d1) * 2 ^ 12 + d2 * 2 ^ 6)
    with (((d0 * 2 ^ 6 + d1) * 2 ^ 6 + d2) * 2 ^ 6) by lia.
  rewrite lor_mul_pow2_add by lia. lia.
Qed.

Lemma quantum_val (dbuf : list Z) :
  Forall (fun d => 0 <= d < 64) dbuf -> (List.length dbuf <= 4)%nat ->
  let d := fun i => nth i dbuf 0 in
  let v := d 0%nat * 262144 + d 1%nat * 4096 + d 2%nat * 64 + d 3%nat in
  quantum dbuf =
  take (List.length dbuf - 1)
       [byte_of_Z (v / 65536); byte_of_Z (v / 256); byte_of_Z v].
Proof.
  intros Hall Hlen d v. unfold quantum.
  assert (Hd : forall i, 0 <= d i < 64).
  { intros i. unfold d. destruct (nth_in_or_default i dbuf 0) as [Hin| ->]; [|lia].
    rewrite Forall_forall in Hall. apply Hall. now apply list_elem_of_In. }
  fold (d 0%nat) (d 1%nat) (d 2%nat) (d 3%nat).
  rewrite val4 by (try apply Hd; apply (proj1 (Hd _))).
  fold v. rewrite !Z.shiftr_div_pow2 by lia. reflexivity.
Qed.

(** Three bytes survive the trip through four characters. *)
Lemma quantum_full (a b c : byte) :
  let val := Z.lor (Z.lor (Z.shiftl (Z_of_byte a) 16)
                          (Z.shiftl (Z_of_byte b) 8)) (Z_of_byte c) in
  quantum [Z.land (Z.shiftr val 18) 63; Z.land (Z.shiftr val 12) 63;
           Z.land (Z.shiftr val 6) 63; Z.land val 63] = [a; b; c].
Proof.
  intros val.
  pose proof (Z_of_byte_range a) as Ha. pose proof (Z_of_byte_range b) as Hb.
  pose proof (Z_of_byte_range c) as Hc.
  assert (Hval : val = Z_of_byte a * 65536 + Z_of_byte b * 256 + Z_of_byte c)
    by (apply val3; lia).
  rewrite <- (Z.shiftr_0_r val) at 4.
  rewrite quantum_val;
    [| repeat constructor; apply sextet_range | simpl; lia].
  cbn [nth List.length Nat.sub take].
  rewrite !sextet_div by lia. rewrite Hval.
  f_equal; [|f_equal; [|f_equal]]; apply byte_of_Z_mod;
    Z.div_mod_to_equations; lia.
Qed.

Lemma quantum_two (a b : byte) :
  let val := Z.lor (Z.shiftl (Z_of_byte a) 16) (Z.shiftl (Z_of_byte b) 8) in
  quantum [Z.land (Z.shiftr val 18) 63; Z.land (Z.shiftr val 12) 63;
           Z.land (Z.shiftr val 6) 63] = [a; b].
Proof.
  intros val.
  pose proof (Z_of_byte_range a) as Ha. pose proof (Z_of_byte_range b) as Hb.
  assert (Hval : val = Z_of_byte a * 65536 + Z_of_byte b * 256).
  { unfold val. rewrite <- (Z.lor_0_r (Z.lor _ _)). rewrite val3; lia. }
  rewrite quantum_val;
    [| repeat constructor; apply sextet_range | simpl; lia].
  cbn [nth List.length Nat.sub take].
  rewrite !sextet_div by lia. rewrite Hval.
  f_equal; [|f_equal]; apply byte_of_Z_mod; Z.div_mod_to_equations; lia.
Qed.

Lemma quantum_one (a : byte) :
  let val := Z.shiftl (Z_of_byte a) 16 in
  quantum [Z.land (Z.shiftr val 18) 63; Z.land (Z.shiftr val 12) 63] = [a].
Proof.
  intros val.
  pose proof (Z_of_byte_range a) as Ha.
  assert (Hval : val = Z_of_byte a * 65536)
    by (unfold val; rewrite Z.shiftl_mul_pow2; lia).
  rewrite quantum_val;
    [| repeat constructor; apply sextet_range | simpl; lia].
  cbn [nth List.length Nat.sub take].
  rewrite !sextet_div by lia. rewrite Hval.
  f_equal. apply byte_of_Z_mod. Z.div_mod_to_equations. lia.
Qed.

Lemma decode_from_plain (dbuf : list Z) (i : Z) (rest : bytes) :
  0 <= i < 64 ->
  decode_from dbuf (encode i :: rest) =
  if (List.length (dbuf ++ [i]) =? 4)%nat then
    match decode_from [] rest with
    | Ok tl => Ok (quantum (dbuf ++ [i]) ++ tl)
    | Err e => Err e
    end
  else decode_from (dbuf ++ [i]) rest.
Proof.
  intros Hi. cbn [decode_from]. rewrite decodeMap_encode by lia.
  replace (i =? 255) with false by (symmetry; apply Z.eqb_neq; lia).
  reflexivity.
Qed.

Lemma list_ind3 {A} (P : list A -> Prop) :
  P [] -> (forall a, P [a]) -> (forall a b, P [a; b]) ->
  (forall a b c l, P l -> P (a :: b :: c :: l)) ->
  forall l, P l.
Proof.
  intros H0 H1 H2 H3 l.
  enough (P l /\ (forall a, P (a :: l)) /\ (forall a b, P (a :: b :: l)))
    by tauto.
  induction l as [|x l (IH0 & IH1 & IH2)]; auto.
Qed.

(** [Decode] undoes [Encode]. *)
Lemma Decode_Encode (src : bytes) : Decode (Encode src) = Ok src.
Proof.
  unfold Decode. induction src as [|a|a b|a b c l IH] using list_ind3.
  - reflexivity.
  - cbn [Encode]. rewrite !decode_from_plain by apply sextet_range.
    cbn [app List.length Nat.eqb decode_from].
    change (decodeMap padChar) with 255. cbn -[quantum].
    now rewrite quantum_one.
  - cbn [Encode]. rewrite !decode_from_plain by apply sextet_range.
    cbn [app List.length Nat.eqb decode_from].
    change (decodeMap padChar) with 255. cbn -[quantum].
    now rewrite quantum_two.
  - cbn [Encode].
    rewrite <- (Z.shiftr_0_r (Z.lor _ (Z_of_byte c))) at 4.
    rewrite !decode_from_plain by apply sextet_range.
    cbn [app List.length Nat.eqb]. rewrite IH.
    rewrite Z.shiftr_0_r. now rewrite quantum_full.
Qed.

Lemma Encode_is_b64 (src : bytes) : Forall is_b64 (Encode src).
Proof.
  assert (Hs : forall v k, is_b64 (encode (Z.land (Z.shiftr v k) 63)))
    by (intros v k; left; apply encode_in_alphabet, sextet_range).
  assert (Hp : is_b64 padChar) by now right.
  induction src as [|a|a b|a b c l IH] using list_ind3; cbn [Encode].
  - constructor.
  - repeat (constructor; [apply Hs || exact Hp|]). constructor.
  - repeat (constructor; [apply Hs || exact Hp|]). constructor.
  - rewrite <- (Z.shiftr_0_r (Z.lor _ (Z_of_byte c))) at 4.
    repeat (constructor; [apply Hs|]). exact IH.
Qed.

Lemma Encode_nonempty (src : bytes) : src <> [] -> Encode src <> [].
Proof.
  destruct src as [|a [|b [|c l]]]; cbn [Encode]; congruence.
Qed.

Lemma newline_not_in_alphabet (c : byte) : is_newline c = true -> decodeMap c = 255.
Proof.
  unfold is_newline. intros Hc. apply orb_true_iff in Hc.
  destruct Hc as [Hc|Hc]; apply byte_eqb_eq in Hc; subst c; reflexivity.
Qed.

Lemma skip_newlines_filter (s : bytes) :
  skip_newlines (no_newlines s) = no_newlines s.
Proof.
  induction s as [|c s IH]; [reflexivity|].
  cbn [no_newlines List.filter]. destruct (is_newline c) eqn:Hc; cbn [negb].
  - exact IH.
  - cbn [skip_newlines]. now rewrite Hc.
Qed.

Lemma no_newlines_skip (s : bytes) :
  no_newlines s =
  match skip_newlines s with
  | [] => []
  | c :: rest => c :: no_newlines rest
  end.
Proof.
  induction s as [|c s IH]; [reflexivity|].
  cbn [no_newlines List.filter skip_newlines].
  destruct (is_newline c) eqn:Hc; cbn [negb]; [exact IH|reflexivity].
Qed.

Lemma decode_from_no_newlines (src : bytes) (dbuf : list Z) :
  decode_from dbuf src = decode_from dbuf (no_newlines src).
Proof.
  revert dbuf. induction src as [|c src IH]; intros dbuf; [reflexivity|].
  cbn [no_newlines List.filter]. destruct (is_newline c) eqn:Hc; cbn [negb].
  - cbn [decode_from]. rewrite (newline_not_in_alphabet c Hc).
    cbn. rewrite Hc. apply IH.
  - cbn [decode_from]. rewrite Hc.
    destruct (negb (decodeMap c =? 255)).
    + destruct (List.length (dbuf ++ [decodeMap c]) =? 4)%nat; now rewrite IH.
    + destruct (negb (byte_eqb c padChar)); [reflexivity|].
      fold (no_newlines src). rewrite skip_newlines_filter.
      rewrite (no_newlines_skip src).
      destruct (skip_newlines src) as [|c2 rest2]; [now destruct (List.length dbuf) as [|[|[|[|?]]]]|].
      rewrite skip_newlines_filter, (no_newlines_skip rest2).
      destruct (List.length dbuf) as [|[|[|[|?]]]]; try reflexivity;
        destruct (skip_newlines rest2); reflexivity.
Qed.

Lemma Decode_no_newlines (src : bytes) : Decode src = Decode (no_newlines src).
Proof. apply decode_from_no_newlines. Qed.

End base64_facts.

(** ** asn1 *)

Module asn1_facts.
Import asn1.

Lemma byte_forallb (P : byte -> bool) :
  forallb (fun i => P (byte_of_Z i)) (map Z.of_nat (seq 0 256)) = true ->
  forall b, P b = true.
Proof.
  intros Hall b. rewrite <- (byte_of_Z_of_byte b).
  apply (Z_below_forallb (fun i => P (byte_of_Z i)) 256 Hall).
  pose proof (Z_of_byte_range b). lia.
Qed.



(** *** The length field *)






(** *** Headers and fields *)






(** *** More input after a record changes nothing *)

Lemma parseBase128Int_loop_app (bs s : bytes) (shifted : nat) (acc x : Z) (rest : bytes) :
  parseBase128Int_loop shifted acc bs = Ok (x, rest) ->
  parseBase128Int_loop shifted acc (bs ++ s) = Ok (x, rest ++ s).
Proof.
  revert shifted acc. induction bs as [|b bs IH]; intros shifted acc; [discriminate|].
  cbn [app parseBase128Int_loop].
  destruct (shifted =? 5)%nat; [discriminate|].
  destruct ((shifted =? 0)%nat && (Z_of_byte b =? 128)); [discriminate|].
  destruct (Z.land (Z_of_byte b) 128 =? 0).
  - destruct (MaxInt32 <? _); [discriminate|]. now intros [= <- <-].
  - apply IH.
Qed.

Lemma parseLength_loop_app (k : nat) (bs s : bytes) (acc x : Z) (rest : bytes) :
  parseLength_loop k acc bs = Ok (x, rest) ->
  parseLength_loop k acc (bs ++ s) = Ok (x, rest ++ s).
Proof.
  revert bs acc. induction k as [|k IH]; intros bs acc.
  - cbn. now intros [= <- <-].
  - destruct bs as [|b bs]; [discriminate|]. cbn [app parseLength_loop].
    destruct (_ =? 0); [discriminate|]. apply IH.
Qed.

Lemma parseLength_app (bs s : bytes) (x : Z) (rest : bytes) :
  parseLength bs = Ok (x, rest) -> parseLength (bs ++ s) = Ok (x, rest ++ s).
Proof.
  destruct bs as [|b bs]; [discriminate|]. cbn [app parseLength].
  destruct (Z.land (Z_of_byte b) 128 =? 0); [now intros [= <- <-]|].
  destruct (Z.land (Z_of_byte b) 127 =? 0); [discriminate|].
  destruct (parseLength_loop _ 0 bs) as [[len rest']|e] eqn:Hl; [|discriminate].
  rewrite (parseLength_loop_app _ _ s _ _ _ Hl).
  destruct (len <? 128); [discriminate|]. now intros [= <- <-].
Qed.

Lemma parseTagAndLength_app (bs s : bytes) (t : tagAndLength) (rest : bytes) :
  parseTagAndLength bs = Ok (t, rest) ->
  parseTagAndLength (bs ++ s) = Ok (t, rest ++ s).
Proof.
  destruct bs as [|b bs]; [discriminate|]. cbn [app parseTagAndLength].
  destruct (Z.land (Z_of_byte b) 31 =? 31).
  - unfold parseBase128Int.
    destruct (parseBase128Int_loop 0 0 bs) as [[tg rest']|e] eqn:Ht; [|discriminate].
    rewrite (parseBase128Int_loop_app _ s _ _ _ _ Ht).
    destruct (tg <? 31); [discriminate|].
    destruct (parseLength rest') as [[len rest'']|e] eqn:Hl; [|discriminate].
    rewrite (parseLength_app _ s _ _ Hl). now intros [= <- <-].
  - destruct (parseLength bs) as [[len rest'']|e] eqn:Hl; [|discriminate].
    rewrite (parseLength_app _ s _ _ Hl). now intros [= <- <-].
Qed.

Lemma parseHeader_app (tg : Z) (c : bool) (bs s inner rest : bytes) :
  parseHeader tg c bs = Ok (inner, rest) ->
  parseHeader tg c (bs ++ s) = Ok (inner, rest ++ s).
Proof.
  unfold parseHeader. destruct bs as [|b bs]; [discriminate|].
  change ((b :: bs) ++ s) with (b :: (bs ++ s)).
  change (b :: (bs ++ s)) with ((b :: bs) ++ s).
  destruct (parseTagAndLength (b :: bs)) as [[t rest0]|e] eqn:Ht; [|discriminate].
  rewrite (parseTagAndLength_app _ s _ _ Ht).
  cbn [app]. destruct (_ || _); [discriminate|].
  destruct (Z.ltb_spec (Z.of_nat (List.length rest0)) (length t)) as [?|Hle];
    [discriminate|].
  intros [= <- <-]. rewrite length_app.
  destruct (Z.ltb_spec (Z.of_nat (List.length rest0 + List.length s)) (length t))
    as [?|_]; [lia|].
  rewrite take_app_le, drop_app_le by lia. reflexivity.
Qed.

Lemma Unmarshal_app (b s : bytes) (val : boxPackage) (rest : bytes) :
  Unmarshal b = Ok (val, rest) -> Unmarshal (b ++ s) = Ok (val, rest ++ s).
Proof.
  unfold Unmarshal, parseField_boxPackage.
  destruct (parseHeader TagSequence true b) as [[inner rest0]|e] eqn:Hh; [|discriminate].
  rewrite (parseHeader_app _ _ _ s _ _ Hh).
  destruct (parseField_bytes inner) as [[lk inner1]|e]; [|discriminate].
  destruct (parseField_bytes inner1) as [[box ?]|e]; [|discriminate].
  now intros [= <- <-].
Qed.

End asn1_facts.

(** ** bytes *)

Lemma HasPrefix_app (p s : bytes) : HasPrefix (p ++ s) p = true.
Proof.
  induction p as [|c p IH]; [now destruct s|].
  cbn. now rewrite byte_eqb_refl.
Qed.

Lemma HasPrefix_nil (s : bytes) : HasPrefix s [] = true.
Proof. now destruct s. Qed.

Lemma HasPrefix_head_neq (c p : byte) (s prefix : bytes) :
  c <> p -> HasPrefix (c :: s) (p :: prefix) = false.
Proof.
  intros Hne. cbn. now rewrite (proj2 (byte_eqb_neq c p) Hne).
Qed.

Lemma HasSuffix_app (s suffix : bytes) : HasSuffix (s ++ suffix) suffix = true.
Proof. unfold HasSuffix. rewrite rev_app_distr. apply HasPrefix_app. Qed.

Lemma IndexByte_app (a r : bytes) (c : byte) :
  Forall (fun x => x <> c) a -> IndexByte (a ++ c :: r) c = Some (List.length a).
Proof.
  induction 1 as [|x a Hx _ IH]; cbn.
  - now rewrite byte_eqb_refl.
  - rewrite (proj2 (byte_eqb_neq x c) Hx), IH. reflexivity.
Qed.

Lemma IndexByte_None (a : bytes) (c : byte) :
  Forall (fun x => x <> c) a -> IndexByte a c = None.
Proof.
  induction 1 as [|x a Hx _ IH]; cbn; [reflexivity|].
  now rewrite (proj2 (byte_eqb_neq x c) Hx), IH.
Qed.

Lemma Index_unfold (s sep : bytes) :
  Index s sep =
  if HasPrefix s sep then Some O
  else match s with
       | [] => None
       | _ :: s' => option_map S (Index s' sep)
       end.
Proof. now destruct s. Qed.

Lemma Index_single_None (a : bytes) (c : byte) :
  Forall (fun x => x <> c) a -> Index a [c] = None.
Proof.
  induction 1 as [|x a Hx _ IH]; [reflexivity|].
  cbn [Index]. rewrite HasPrefix_head_neq by exact Hx. now rewrite IH.
Qed.

Lemma TrimRight_keep (s cutset : bytes) (c : byte) :
  existsb (byte_eqb c) cutset = false -> TrimRight (s ++ [c]) cutset = s ++ [c].
Proof.
  intros Hc. unfold TrimRight, TrimRightFunc. rewrite rev_app_distr. cbn.
  rewrite Hc. cbn. now rewrite rev_involutive.
Qed.

Lemma drop_app_sum {A} (a b c : list A) :
  drop (List.length a + List.length b) (a ++ b ++ c) = c.
Proof. now rewrite app_assoc, <- length_app, drop_app_length. Qed.

Lemma take_app_sum {A} (a b c : list A) :
  take (List.length a + List.length b) (a ++ b ++ c) = a ++ b.
Proof. now rewrite app_assoc, <- length_app, take_app_length. Qed.

(** ** pem *)

Module pem_facts.
Import base64 pem base64_facts.

Lemma getLine_line (l r : bytes) : is_line l -> getLine (l ++ nl :: r) = (l, r).
Proof.
  intros [Hnl Hend]. unfold getLine. rewrite (IndexByte_app l r nl Hnl).
  destruct l as [|c l' _] using rev_ind; cbn [List.length Nat.ltb Nat.leb andb].
  - reflexivity.
  - destruct (Hend l' c eq_refl) as (Hcr & Hsp & Htab).
    rewrite length_app. cbn [List.length].
    replace (List.length l' + 1 - 1)%nat with (List.length l') by lia.
    rewrite <- app_assoc. cbn [app].
    rewrite nth_middle, (proj2 (byte_eqb_neq c cr) Hcr), andb_false_r.
    change (l' ++ c :: nl :: r) with (l' ++ [c] ++ nl :: r).
    rewrite app_assoc.
    replace (List.length l' + 1)%nat with (List.length (l' ++ [c]))
      by (rewrite length_app; reflexivity).
    rewrite take_app_length.
    replace (List.length (l' ++ [c]) + 1)%nat with (S (List.length (l' ++ [c]))) by lia.
    change (nl :: r) with ([nl] ++ r). rewrite app_assoc.
    replace (S (List.length (l' ++ [c]))) with (List.length ((l' ++ [c]) ++ [nl]))
      by (rewrite !length_app; cbn; lia).
    rewrite drop_app_length. f_equal.
    apply TrimRight_keep. cbn.
    now rewrite (proj2 (byte_eqb_neq c space) Hsp), (proj2 (byte_eqb_neq c tab) Htab).
Qed.

Lemma is_line_dashes (ty : bytes) (pre : bytes) :
  Forall (fun x => x <> nl) pre -> Forall (fun x => x <> nl) ty ->
  is_line (pre ++ ty ++ pemEndOfLine).
Proof.
  intros Hpre Hty. split.
  - rewrite !Forall_app. repeat split; auto.
    unfold pemEndOfLine. repeat constructor; discriminate.
  - intros l' c Heq. change pemEndOfLine with (B "----" ++ [dash]) in Heq.
    rewrite !app_assoc in Heq. apply app_inj_tail in Heq as [_ <-].
    repeat split; discriminate.
Qed.

Lemma is_b64_chars (c : byte) :
  is_b64 c ->
  c <> nl /\ c <> cr /\ c <> space /\ c <> tab /\ c <> dash /\ c <> ":"%byte.
Proof.
  intros Hc. repeat split; apply (is_b64_not c); auto; discriminate.
Qed.

Lemma is_line_b64 (l : bytes) : Forall is_b64 l -> is_line l.
Proof.
  intros Hl. split.
  - eapply Forall_impl; [exact Hl|]. intros c Hc. apply (is_b64_chars c Hc).
  - intros l' c ->. apply Forall_app in Hl as [_ Hc].
    apply Forall_inv in Hc. destruct (is_b64_chars c Hc) as (_ & ? & ? & ? & _).
    auto.
Qed.

Lemma no_newlines_b64 (s : bytes) : Forall is_b64 s -> no_newlines s = s.
Proof.
  induction 1 as [|c s Hc _ IH]; [reflexivity|].
  cbn [no_newlines List.filter]. rewrite (is_b64_not_newline c Hc). cbn [negb].
  f_equal. exact IH.
Qed.

Lemma removeSpacesAndTabs_body (s : bytes) :
  Forall is_body s -> removeSpacesAndTabs s = s.
Proof.
  induction 1 as [|c s Hc _ IH]; [reflexivity|].
  cbn [removeSpacesAndTabs List.filter].
  assert (Hne : c <> space /\ c <> tab).
  { destruct Hc as [Hc| ->]; [|split; discriminate].
    destruct (is_b64_chars c Hc) as (_ & _ & ? & ? & _). auto. }
  destruct Hne as [Hs Ht].
  rewrite (proj2 (byte_eqb_neq c space) Hs), (proj2 (byte_eqb_neq c tab) Ht).
  cbn [orb negb]. f_equal. exact IH.
Qed.

Lemma breakLines_nil (fuel : nat) : breakLines fuel [] = [].
Proof. now destruct fuel. Qed.

(** The body written by the line breaker: the lines, each closed by a
    line feed; without the line feeds it is the text again. *)
Lemma breakLines_spec (fuel : nat) (s : bytes) :
  (List.length s <= fuel)%nat -> s <> [] -> Forall is_b64 s ->
  exists body',
    breakLines fuel s = body' ++ [nl]
    /\ no_newlines body' = s
    /\ Forall is_body body'.
Proof.
  revert s. induction fuel as [|fuel IH]; intros s Hlen Hne Hs.
  - destruct s; [congruence|simpl in Hlen; lia].
  - destruct s as [|c s]; [congruence|]. cbn [breakLines].
    set (line := take pemLineLength (c :: s)).
    set (more := drop pemLineLength (c :: s)).
    assert (Hsplit : c :: s = line ++ more) by (symmetry; apply take_drop).
    assert (Hline : Forall is_b64 line) by (apply Forall_take; exact Hs).
    assert (Hmore : Forall is_b64 more) by (apply Forall_drop; exact Hs).
    destruct more as [|m more'] eqn:Em.
    + rewrite breakLines_nil. exists line. split; [reflexivity|]. split.
      * rewrite no_newlines_b64 by exact Hline. now rewrite Hsplit, app_nil_r.
      * eapply Forall_impl; [exact Hline|]. now left.
    + assert (Hlen' : (List.length (m :: more') <= fuel)%nat).
      { rewrite <- Em. unfold more. rewrite length_drop.
        unfold pemLineLength. simpl List.length in *. lia. }
      destruct (IH (m :: more') Hlen' ltac:(discriminate) Hmore)
        as (body0 & Hb & Hnn & Hbody).
      exists (line ++ nl :: body0). split; [|split].
      * rewrite Hb. now rewrite <- app_assoc.
      * unfold no_newlines in *. rewrite List.filter_app. cbn [List.filter].
        change (negb (base64.is_newline nl)) with false. cbv iota.
        rewrite Hnn. fold (no_newlines line).
        rewrite no_newlines_b64 by exact Hline. now rewrite Hsplit.
      * apply Forall_app. split.
        -- eapply Forall_impl; [exact Hline|]. now left.
        -- constructor; [now right|exact Hbody].
Qed.

Lemma breakLines_first (fuel : nat) (s : bytes) :
  (List.length s <= fuel)%nat -> s <> [] -> Forall is_b64 s ->
  exists line more,
    breakLines fuel s = line ++ nl :: more /\ line <> [] /\ Forall is_b64 line.
Proof.
  intros Hlen Hne Hs. destruct fuel as [|fuel].
  - destruct s; [congruence|simpl in Hlen; lia].
  - destruct s as [|c s]; [congruence|]. cbn [breakLines].
    eexists _, _. split; [reflexivity|]. split.
    + unfold pemLineLength. cbn. discriminate.
    + apply Forall_take. exact Hs.
Qed.

Lemma Index_pemEnd (s r : bytes) :
  Forall (fun c => c <> dash) s -> Index (s ++ pemEnd ++ r) pemEnd = Some (List.length s).
Proof.
  induction 1 as [|c s Hc Hs IH].
  - cbn [app]. rewrite Index_unfold. now rewrite HasPrefix_app.
  - cbn [app List.length]. rewrite Index_unfold.
    assert (Hp : HasPrefix (c :: s ++ pemEnd ++ r) pemEnd = false).
    { unfold pemEnd at 2. cbn [HasPrefix].
      destruct s as [|c' s'].
      - cbn [app]. unfold pemEnd.
        change (B "-----END ") with (dash :: B "----END ").
        cbn [HasPrefix app].
        change (byte_eqb nl dash) with false. cbn. apply andb_false_r.
      - apply Forall_inv in Hs. cbn [app].
        change (B "-----END ") with (dash :: B "----END ").
        cbn [HasPrefix].
        rewrite (proj2 (byte_eqb_neq c' dash) Hs). cbn. apply andb_false_r. }
    rewrite Hp, IH. reflexivity.
Qed.

Lemma readHeaders_stop (fuel : nat) (line r : bytes) :
  line <> [] -> Forall is_b64 line ->
  readHeaders (S fuel) [] (line ++ nl :: r) = Some ([], line ++ nl :: r).
Proof.
  intros Hne Hl. cbn [readHeaders].
  rewrite (getLine_line line) by (apply is_line_b64; exact Hl).
  unfold Cut, colon. change (B ":") with [":"%byte].
  rewrite Index_single_None.
  - destruct line; [congruence|reflexivity].
  - eapply Forall_impl; [exact Hl|]. intros c Hc. apply (is_b64_chars c Hc).
Qed.

Lemma ends_at_body (body' rest : bytes) (c : byte) (more : bytes) :
  Forall is_body body' -> is_b64 c ->
  body' ++ pemEnd ++ rest = c :: more ->
  (if (List.length (@nil (bytes * bytes)) =? 0)%nat
      && HasPrefix (body' ++ pemEnd ++ rest) (tl pemEnd)
   then Some (O, (List.length pemEnd - 1)%nat)
   else
     match Index (body' ++ pemEnd ++ rest) pemEnd with
     | Some i => Some (i, (i + List.length pemEnd)%nat)
     | None => None
     end)
  = Some (List.length body', (List.length body' + List.length pemEnd)%nat).
Proof.
  intros Hbody Hc Heq.
  assert (Hno : HasPrefix (body' ++ pemEnd ++ rest) (tl pemEnd) = false).
  { rewrite Heq. apply HasPrefix_head_neq. apply (is_b64_chars c Hc). }
  rewrite Hno, andb_false_r, Index_pemEnd; [reflexivity|].
  eapply Forall_impl; [exact Hbody|]. intros x [Hx| ->]; [|discriminate].
  apply (is_b64_chars x Hx).
Qed.

Lemma getLine_nl : getLine [nl] = ([], []).
Proof. reflexivity. Qed.

(** One turn of the loop on an encoded block. *)
Lemma decodeBlock_encoded (ty b body' : bytes) (c : byte) (line more : bytes) :
  Forall (fun x => x <> nl) ty ->
  Forall is_body body' -> no_newlines body' = base64.Encode b ->
  Forall is_b64 (c :: line) ->
  body' ++ [nl] = (c :: line) ++ nl :: more ->
  decodeBlock ((ty ++ pemEndOfLine) ++ nl :: body' ++ pemEnd ++ ty ++ pemEndOfLine ++ [nl])
  = Found (mkBlock ty [] b) [].
Proof.
  intros Hty Hchars Hnn Hline Hfirst.
  set (tail_ := ty ++ pemEndOfLine ++ [nl]).
  assert (Hshape : body' ++ pemEnd ++ tail_
                   = (c :: line) ++ nl :: (more ++ tl pemEnd ++ tail_)).
  { change pemEnd with ([nl] ++ tl pemEnd).
    rewrite <- (app_assoc [nl]), (app_assoc body' [nl]), Hfirst.
    rewrite <- app_assoc. reflexivity. }
  assert (Htake : take (List.length (ty ++ pemEndOfLine) - List.length pemEndOfLine)
                       (ty ++ pemEndOfLine) = ty)
    by (rewrite length_app, Nat.add_sub; apply take_app_length).
  unfold decodeBlock.
  rewrite (getLine_line (ty ++ pemEndOfLine)) by (apply (is_line_dashes ty []); auto).
  cbv beta iota zeta.
  rewrite HasSuffix_app.
  unfold negb at 1. cbv beta iota.
  rewrite Hshape at 1 2.
  rewrite readHeaders_stop by (exact Hline || discriminate).
  rewrite <- Hshape. cbv beta iota.
  rewrite (ends_at_body body' tail_ c (line ++ nl :: more ++ tl pemEnd ++ tail_))
    by (auto; apply (Forall_inv Hline)).
  cbv beta iota. rewrite !Htake.
  unfold tail_.
  rewrite drop_app_sum.
  replace (List.length (ty ++ pemEndOfLine ++ [nl]) <? List.length ty + List.length pemEndOfLine)%nat
    with false
    by (symmetry; apply Nat.ltb_ge; rewrite !length_app; simpl List.length; lia).
  cbv beta iota.
  rewrite take_app_sum, drop_app_sum.
  rewrite HasPrefix_app, HasSuffix_app, getLine_nl.
  unfold negb, orb, fst. cbv beta iota.
  assert (Hz : (List.length (@nil byte) =? 0)%nat = true) by reflexivity.
  rewrite Hz. cbv beta iota.
  rewrite take_app_length.
  rewrite removeSpacesAndTabs_body by exact Hchars.
  rewrite Decode_no_newlines, Hnn, Decode_Encode.
  f_equal.
  assert (Hrest : drop (List.length body' + List.length pemEnd - 1)
                       (body' ++ pemEnd ++ ty ++ pemEndOfLine ++ [nl])
                  = ([space] ++ ty ++ pemEndOfLine) ++ [nl]).
  { assert (Hp : pemEnd = (nl :: B "-----END") ++ [space]) by reflexivity.
    rewrite Hp at 2.
    replace (List.length body' + List.length pemEnd - 1)%nat
      with (List.length body' + List.length (nl :: B "-----END"))%nat
      by (rewrite Hp, length_app; simpl List.length; lia).
    rewrite <- (app_assoc (nl :: B "-----END")), drop_app_sum.
    rewrite <- !app_assoc. reflexivity. }
  rewrite Hrest.
  rewrite (getLine_line ([space] ++ ty ++ pemEndOfLine) []).
  - reflexivity.
  - apply is_line_dashes; [|exact Hty]. constructor; [discriminate|constructor].
Qed.

(** [Decode] undoes [EncodeToMemory] for a block without headers,
    with contents, and with a type that fits on a line. *)
Lemma Decode_EncodeToMemory (ty b : bytes) :
  Forall (fun x => x <> nl) ty -> b <> [] ->
  Decode (EncodeToMemory (mkBlock ty [] b)) = (Some (mkBlock ty [] b), []).
Proof.
  intros Hty Hb.
  pose proof (Encode_is_b64 b) as Henc.
  pose proof (Encode_nonempty b Hb) as Hne.
  destruct (breakLines_spec _ _ (le_n _) Hne Henc) as (body' & Hbody & Hnn & Hchars).
  destruct (breakLines_first _ _ (le_n _) Hne Henc) as (line & more & Hfirst & Hline & Hlb).
  destruct line as [|c line]; [congruence|].
  assert (Henc_eq : EncodeToMemory (mkBlock ty [] b)
                    = tl pemStart ++ (ty ++ pemEndOfLine)
                      ++ nl :: body' ++ pemEnd ++ ty ++ pemEndOfLine ++ [nl]).
  { unfold EncodeToMemory. unfold Headers, Type_, Bytes, existsb.
    rewrite Hbody. rewrite <- !app_assoc. reflexivity. }
  rewrite Henc_eq. unfold Decode.
  set (data := tl pemStart ++ _).
  assert (Hstart : findStart data
                   = Some ((ty ++ pemEndOfLine)
                           ++ nl :: body' ++ pemEnd ++ ty ++ pemEndOfLine ++ [nl])).
  { unfold findStart, data. rewrite HasPrefix_app. apply (f_equal Some).
    exact (drop_app_length (tl pemStart) _). }
  assert (Hloop : forall fuel d, decode_loop (S fuel) d data = (Some (mkBlock ty [] b), [])).
  { intros fuel d. simpl decode_loop. rewrite Hstart.
    rewrite (decodeBlock_encoded ty b body' c line more); auto.
    rewrite <- Hbody. exact Hfirst. }
  apply Hloop.
Qed.

End pem_facts.

(** * The container codec: [packageBox] and [unpackageBox] *)

Lemma bind_unfold {A B} (m : M A) (k : A -> M B) (w : World) :
  (m ≫= k) w =
  match m w with
  | (Return a, w') => k a w'
  | (Exit c, w') => (Exit c, w')
  | (Panic s, w') => (Panic s, w')
  end.
Proof. reflexivity. Qed.

Lemma Marshal_Ok (val : boxPackage) :
  exists der, asn1.Marshal val = Ok der /\ der <> [].
Proof. eexists. split; [reflexivity|]. discriminate. Qed.



Lemma unpackageBox_binary (pkg : bytes) (val : boxPackage) (rest : bytes) (w : World) :
  asn1.Unmarshal pkg = Ok (val, rest) ->
  unpackageBox pkg w = (Return (Ok (LockedKey val, Box val)), w).
Proof. intros Hu. unfold unpackageBox. now rewrite Hu. Qed.





(** C4.  When the bytes are no record and no armoured record either,
    [unpackageBox] returns an error: [invalid box] when there is no
    envelope or its label is another one, the error of the record
    parser when the body of the envelope is no record.  The record is
    tried first; its failure alone decides nothing, a good envelope is
    still decoded. *)
Theorem unpackageBox_invalid (pkg : bytes) (e0 : error) (w : World) :
  asn1.Unmarshal pkg = Err e0 ->
  (fst (pem.Decode pkg) = None ->
   unpackageBox pkg w
   = (Return (Err (errorString "invalid box")), printed (Msg "[!] invalid box.") w))
  /\ (forall blk, fst (pem.Decode pkg) = Some blk ->
      pem.Type_ blk <> B "SSHBOX ENCRYPTED FILE" ->
      unpackageBox pkg w
      = (Return (Err (errorString "invalid box")), printed (Msg "[!] invalid box.") w))
  /\ (forall blk e, fst (pem.Decode pkg) = Some blk ->
      pem.Type_ blk = B "SSHBOX ENCRYPTED FILE" ->
      asn1.Unmarshal (pem.Bytes blk) = Err e ->
      unpackageBox pkg w = (Return (Err e), w))
  /\ (forall blk val rest, fst (pem.Decode pkg) = Some blk ->
      pem.Type_ blk = B "SSHBOX ENCRYPTED FILE" ->
      asn1.Unmarshal (pem.Bytes blk) = Ok (val, rest) ->
      unpackageBox pkg w = (Return (Ok (LockedKey val, Box val)), w)).
Proof.
  intros Hu. unfold unpackageBox. rewrite Hu.
  destruct (pem.Decode pkg) as [block r]. cbn [fst].
  repeat split.
  - now intros ->.
  - intros blk -> Hty. now rewrite (proj2 (bytes_eqb_neq _ _) Hty).
  - intros blk e -> Hty He. rewrite (proj2 (bytes_eqb_eq _ _) Hty). cbn [negb].
    now rewrite He.
  - intros blk val rest -> Hty Hv. rewrite (proj2 (bytes_eqb_eq _ _) Hty). cbn [negb].
    now rewrite Hv.
Qed.

Lemma unpackageBox_invalid_witness :
  unpackageBox (B "not a box") toy.world
  = (Return (Err (errorString "invalid box")),
     printed (Msg "[!] invalid box.") toy.world).
Proof.
  apply (unpackageBox_invalid (B "not a box")
           (asn1_StructuralError "tags don't match") toy.world);
    reflexivity.
Defined.

(** C9.  Bytes after a record are not looked at: when [r] parses as a
    record, [r ++ s] is unpacked to the same two fields. *)
Theorem unpackageBox_trailing (r s : bytes) (val : boxPackage) (rest : bytes) (w : World) :
  asn1.Unmarshal r = Ok (val, rest) ->
  unpackageBox (r ++ s) w = (Return (Ok (LockedKey val, Box val)), w)
  /\ unpackageBox (r ++ s) w = unpackageBox r w.
Proof.
  intros Hu.
  pose proof (asn1_facts.Unmarshal_app r s val rest Hu) as Hus.
  rewrite (unpackageBox_binary _ _ _ w Hus), (unpackageBox_binary _ _ _ w Hu).
  split; reflexivity.
Qed.

Lemma unpackageBox_trailing_witness :
  unpackageBox (["048"; "006"; "004"; "001"; "a"; "004"; "001"; "b"]%byte ++ B "trailing")
               toy.world
  = (Return (Ok (B "a", B "b")), toy.world)
  /\ unpackageBox (["048"; "006"; "004"; "001"; "a"; "004"; "001"; "b"]%byte ++ B "trailing")
                  toy.world
     = unpackageBox ["048"; "006"; "004"; "001"; "a"; "004"; "001"; "b"]%byte toy.world.
Proof.
  apply (unpackageBox_trailing
           ["048"; "006"; "004"; "001"; "a"; "004"; "001"; "b"]%byte
           (B "trailing") (mkBoxPackage (B "a") (B "b")) [] toy.world).
  reflexivity.
Defined.

(** * The key codec: [loadPublicKey] and [loadPrivateKey] *)

Lemma be_value_uint32_be (n : Z) : 0 <= n < 2 ^ 32 -> be_value (uint32_be n) = n.
Proof.
  intros Hn. unfold be_value, uint32_be. rewrite !be_fold_cons.
  unfold be_fold. cbn [fold_left]. rewrite !Z_of_byte_of_Z.
  rewrite !Z.shiftr_div_pow2 by lia.
  Z.div_mod_to_equations. lia.
Qed.

Lemma io_ReadFull_app (s r : bytes) :
  io_ReadFull (s ++ r) (List.length s) = (Ok s, r).
Proof.
  unfold io_ReadFull. destruct s as [|c s]; [reflexivity|].
  cbn [List.length Nat.eqb app].
  replace (S (List.length (s ++ r)) <? S (List.length s))%nat with false
    by (symmetry; apply Nat.ltb_ge; rewrite length_app; lia).
  change (c :: s ++ r) with ((c :: s) ++ r).
  change (S (List.length s)) with (List.length (c :: s)).
  now rewrite take_app_length, drop_app_length.
Qed.

Lemma binary_Read_int32_uint32_be (n : Z) (r : bytes) :
  0 <= n < 2 ^ 32 -> binary_Read_int32 (uint32_be n ++ r) = (Ok (to_int32 n), r).
Proof.
  intros Hn. unfold binary_Read_int32.
  change 4%nat with (List.length (uint32_be n)).
  now rewrite io_ReadFull_app, be_value_uint32_be.
Qed.

(** A well-formed field is read, and the buffer moves past it. *)
Lemma readField_sshString (s r : bytes) (w : World) :
  Z.of_nat (List.length s) < 2 ^ 31 ->
  readField (sshString s ++ r) w = (Return (Ok (s, r)), w).
Proof.
  intros Hs. unfold readField, sshString. rewrite <- app_assoc.
  rewrite binary_Read_int32_uint32_be by lia.
  unfold to_int32.
  destruct (Z.ltb_spec (Z.of_nat (List.length s)) (2 ^ 31)) as [_|?]; [|lia].
  rewrite bind_unfold. unfold make_bytes.
  destruct (Z.ltb_spec (Z.of_nat (List.length s)) 0) as [?|_]; [lia|].
  cbn [ret]. rewrite repeat_length, Nat2Z.id, io_ReadFull_app. reflexivity.
Qed.

(** What [loadPublicKey] does with the bytes it fetched. *)
Lemma loadPublicKey_decoded (name : string) (local : bool) (w w1 : World)
      (kb64 : bytes) (err : option error) (blob : bytes) :
  fetchKey name local w = (Return (kb64, err), w1) ->
  base64.Decode (pubkeyRegexp_ReplaceAll kb64) = Ok blob ->
  exists zeros, loadPublicKey name local w = decodePublicKey (blob ++ zeros) w1.
Proof.
  intros Hf Hd. unfold loadPublicKey. rewrite bind_unfold, Hf.
  unfold base64_Decode_into. rewrite Hd. eexists. reflexivity.
Qed.

Lemma decodePublicKey_wrong_algorithm (alg rest : bytes) (w : World) :
  Z.of_nat (List.length alg) < 2 ^ 31 -> alg <> B "ssh-rsa" ->
  decodePublicKey (sshString alg ++ rest) w
  = (Return (Err (errorString "invalid public key")),
     printed (Msg "[!] invalid public key.") w).
Proof.
  intros Hlen Halg. unfold decodePublicKey.
  rewrite bind_unfold, readField_sshString by exact Hlen.
  now rewrite (proj2 (bytes_eqb_neq _ _) Halg).
Qed.

Lemma decodePublicKey_blob (e m rest : bytes) (w : World) :
  Z.of_nat (List.length e) < 2 ^ 31 -> Z.of_nat (List.length m) < 2 ^ 31 ->
  decodePublicKey (sshKeyBlob (B "ssh-rsa") e m ++ rest) w
  = (Return (Ok (mkPublicKey (be_value m) (big_Int64 (be_value e)))), w).
Proof.
  intros He Hm. unfold decodePublicKey, sshKeyBlob.
  rewrite <- !app_assoc.
  rewrite bind_unfold, readField_sshString by (vm_compute; reflexivity).
  rewrite (proj2 (bytes_eqb_eq _ _) eq_refl). cbn [negb].
  rewrite bind_unfold, readField_sshString by exact He.
  rewrite bind_unfold, readField_sshString by exact Hm.
  reflexivity.
Qed.

(** C5.  A key whose algorithm field reads anything but [ssh-rsa] is
    refused with the error [invalid public key]. *)
Theorem wrong_algorithm_rejected (name : string) (local : bool) (w w1 : World)
        (kb64 : bytes) (err : option error) (alg rest : bytes) :
  fetchKey name local w = (Return (kb64, err), w1) ->
  base64.Decode (pubkeyRegexp_ReplaceAll kb64) = Ok (sshString alg ++ rest) ->
  Z.of_nat (List.length alg) < 2 ^ 31 ->
  alg <> B "ssh-rsa" ->
  loadPublicKey name local w
  = (Return (Err (errorString "invalid public key")),
     printed (Msg "[!] invalid public key.") w1).
Proof.
  intros Hf Hd Hlen Halg.
  destruct (loadPublicKey_decoded _ _ _ _ _ _ _ Hf Hd) as [zeros ->].
  rewrite <- app_assoc. now apply decodePublicKey_wrong_algorithm.
Qed.

Lemma wrong_algorithm_rejected_witness :
  let w := mkWorld (<["id_dsa.pub" :=
                       B "ssh-rsa " ++ base64.Encode (sshString (B "ssh-dss") ++ B "rest")]> ∅)
                   ∅ ∅ [] [] in
  loadPublicKey "id_dsa.pub" true w
  = (Return (Err (errorString "invalid public key")),
     printed (Msg "[!] invalid public key.") w).
Proof.
  intros w.
  apply (wrong_algorithm_rejected "id_dsa.pub" true w w
           (B "ssh-rsa " ++ base64.Encode (sshString (B "ssh-dss") ++ B "rest")) None
           (B "ssh-dss") (B "rest")).
  - reflexivity.
  - vm_compute. reflexivity.
  - vm_compute. reflexivity.
  - discriminate.
Defined.

Lemma big_Int64_spec (x : Z) :
  0 <= x ->
  (x < 2 ^ 63 -> big_Int64 x = x)
  /\ (2 ^ 63 <= x ->
      big_Int64 x <> x /\ - 2 ^ 63 <= big_Int64 x < 2 ^ 63
      /\ (x - big_Int64 x) mod 2 ^ 64 = 0).
Proof.
  intros Hx. unfold big_Int64. rewrite (land_ones_mod x 64) by lia.
  pose proof (Z.mod_pos_bound x (2 ^ 64) ltac:(lia)) as Hm.
  split.
  - intros Hlt. rewrite Z.mod_small by lia.
    destruct (Z.ltb_spec x (2 ^ 63)); lia.
  - intros Hge.
    destruct (Z.ltb_spec (x mod 2 ^ 64) (2 ^ 63)) as [Hl|Hl].
    + repeat split; try lia.
      rewrite Zminus_mod_idemp_r, Z.sub_diag. reflexivity.
    + repeat split; try lia.
      replace (x - (x mod 2 ^ 64 - 2 ^ 64)) with (x - x mod 2 ^ 64 + 1 * 2 ^ 64) by lia.
      rewrite Z.mod_add by lia.
      rewrite Zminus_mod_idemp_r, Z.sub_diag. reflexivity.
Qed.

(** C10.  The exponent goes through [Int64]: a value below [2^63] is
    kept; a larger one is cut to its low 64 bits, read as a signed
    number, and the key is returned all the same. *)
Theorem exponent_through_int64 (name : string) (local : bool) (w w1 : World)
        (kb64 : bytes) (err : option error) (e m rest : bytes) :
  fetchKey name local w = (Return (kb64, err), w1) ->
  base64.Decode (pubkeyRegexp_ReplaceAll kb64)
  = Ok (sshKeyBlob (B "ssh-rsa") e m ++ rest) ->
  Z.of_nat (List.length e) < 2 ^ 31 ->
  Z.of_nat (List.length m) < 2 ^ 31 ->
  exists key,
    loadPublicKey name local w = (Return (Ok key), w1)
    /\ N key = be_value m
    /\ (be_value e < 2 ^ 63 -> E key = be_value e)
    /\ (2 ^ 63 <= be_value e ->
        E key <> be_value e /\ - 2 ^ 63 <= E key < 2 ^ 63
        /\ (be_value e - E key) mod 2 ^ 64 = 0).
Proof.
  intros Hf Hd He Hm.
  destruct (loadPublicKey_decoded _ _ _ _ _ _ _ Hf Hd) as [zeros ->].
  rewrite <- app_assoc, decodePublicKey_blob by assumption.
  eexists. split; [reflexivity|]. cbn [N E]. split; [reflexivity|].
  apply big_Int64_spec. apply be_fold_nonneg. lia.
Qed.

Lemma exponent_through_int64_witness :
  exists key,
    loadPublicKey "id_rsa.pub" true toy.world = (Return (Ok key), toy.world)
    /\ N key = be_value toy.modulus
    /\ (be_value toy.exponent < 2 ^ 63 -> E key = be_value toy.exponent)
    /\ (2 ^ 63 <= be_value toy.exponent ->
        E key <> be_value toy.exponent /\ - 2 ^ 63 <= E key < 2 ^ 63
        /\ (be_value toy.exponent - E key) mod 2 ^ 64 = 0).
Proof.
  apply (exponent_through_int64 "id_rsa.pub" true toy.world toy.world
           toy.id_rsa_pub None toy.exponent toy.modulus []).
  - reflexivity.
  - vm_compute. reflexivity.
  - vm_compute. reflexivity.
  - vm_compute. reflexivity.
Defined.

(** C6.  A length field with its high bit set is a negative [int32]:
    [make] panics, no error is returned. *)
Theorem high_bit_length_panics :
  let w := mkWorld (<["id_rsa.pub" := B "/////w=="]> ∅) ∅ ∅ [] [] in
  loadPublicKey "id_rsa.pub" true w = (Panic "makeslice: len out of range", w).
Proof. vm_compute. reflexivity. Qed.

(** * Fetching and loading keys *)

Lemma fetchKey_local_found (name : string) (d : bytes) (w : World) :
  files w !! name = Some d -> fetchKey name true w = (Return (d, None), w).
Proof.
  intros Hf. unfold fetchKey. rewrite bind_unfold. unfold ioutil_ReadFile.
  now rewrite Hf.
Qed.

Lemma fetchKey_local_missing (name : string) (w : World) :
  files w !! name = None ->
  fetchKey name true w
  = (Return ([], Some (os_PathError "open" name)),
     printed (MsgErr "[!]" (os_PathError "open" name)) w).
Proof.
  intros Hf. unfold fetchKey. rewrite bind_unfold. unfold ioutil_ReadFile.
  now rewrite Hf.
Qed.

(** ** Steps that only print *)

Lemma same_but_stdout_refl (w : World) : same_but_stdout w w.
Proof. repeat split. Qed.

Lemma same_but_stdout_trans (w1 w2 w3 : World) :
  same_but_stdout w1 w2 -> same_but_stdout w2 w3 -> same_but_stdout w1 w3.
Proof.
  unfold same_but_stdout. intros (? & ? & ? & ?) (? & ? & ? & ?).
  repeat split; congruence.
Qed.

Lemma only_prints_ret {A} (a : A) : only_prints (mret a).
Proof. intros w o w' [= <- <-]. apply same_but_stdout_refl. Qed.

Lemma only_prints_bind {A B} (m : M A) (k : A -> M B) :
  only_prints m -> (forall a, only_prints (k a)) -> only_prints (m ≫= k).
Proof.
  intros Hm Hk w o w'. rewrite bind_unfold.
  destruct (m w) as [[a|c|s] w1] eqn:Hmw; intros Hr.
  - eapply same_but_stdout_trans; [eapply Hm; eauto|eapply Hk; eauto].
  - injection Hr as <- <-. eapply Hm; eauto.
  - injection Hr as <- <-. eapply Hm; eauto.
Qed.

Lemma only_prints_Println (l : Line) : only_prints (Println l).
Proof. intros w o w' [= <- <-]. repeat split. Qed.

Lemma only_prints_Exit {A} (c : Z) : only_prints (@os_Exit A c).
Proof. intros w o w' [= <- <-]. apply same_but_stdout_refl. Qed.

Lemma only_prints_panic {A} (s : string) : only_prints (@panic A s).
Proof. intros w o w' [= <- <-]. apply same_but_stdout_refl. Qed.

Lemma only_prints_make_bytes (n : Z) : only_prints (make_bytes n).
Proof.
  unfold make_bytes. destruct (n <? 0);
    [apply only_prints_panic|apply (only_prints_ret (A := bytes))].
Qed.

Lemma only_prints_ReadFile (name : string) : only_prints (ioutil_ReadFile name).
Proof.
  intros w o w'. unfold ioutil_ReadFile.
  destruct (files w !! name); intros [= <- <-]; apply same_but_stdout_refl.
Qed.

Lemma only_prints_Get (url : string) : only_prints (http_Get url).
Proof.
  intros w o w'. unfold http_Get.
  destruct (remote w !! url); intros [= <- <-]; apply same_but_stdout_refl.
Qed.

Lemma only_prints_ReadAll (resp : HttpResponse) : only_prints (ioutil_ReadAll resp).
Proof. intros w o w' [= <- <-]. apply same_but_stdout_refl. Qed.

Ltac only_prints_step :=
  first
    [ apply only_prints_bind; [|intros ?]
    | apply only_prints_Println
    | apply only_prints_Exit
    | apply only_prints_panic
    | apply only_prints_make_bytes
    | apply only_prints_ReadFile
    | apply only_prints_Get
    | apply only_prints_ReadAll
    | apply @only_prints_ret
    | match goal with
      | |- only_prints (match ?x with _ => _ end) => destruct x
      | |- only_prints (if ?x then _ else _) => destruct x
      end ].

Lemma only_prints_fetchKey (name : string) (local : bool) :
  only_prints (fetchKey name local).
Proof. unfold fetchKey. repeat only_prints_step. Qed.

Lemma only_prints_readField (buf : bytes) : only_prints (readField buf).
Proof. unfold readField. repeat only_prints_step. Qed.

Lemma only_prints_decodePublicKey (kb : bytes) : only_prints (decodePublicKey kb).
Proof.
  unfold decodePublicKey.
  repeat first [apply only_prints_readField | only_prints_step].
Qed.

Lemma only_prints_loadPublicKey (name : string) (local : bool) :
  only_prints (loadPublicKey name local).
Proof.
  unfold loadPublicKey.
  repeat first [apply only_prints_fetchKey | apply only_prints_decodePublicKey
               | only_prints_step].
Qed.

Lemma only_prints_loadPrivateKey `{Crypto} (name : string) :
  only_prints (loadPrivateKey name).
Proof.
  unfold loadPrivateKey.
  repeat first [apply only_prints_fetchKey | only_prints_step].
Qed.


Lemma only_prints_unpackageBox (pkg : bytes) : only_prints (unpackageBox pkg).
Proof. unfold unpackageBox. repeat only_prints_step. Qed.

(** ** [loadPrivateKey] *)


Lemma loadPrivateKey_fetched `{Crypto} (name : string) (w w1 : World)
      (kb : bytes) (err : option error) :
  fetchKey name true w = (Return (kb, err), w1) ->
  loadPrivateKey name w =
  match fst (pem.Decode kb) with
  | None => (Exit 1, printed (Msg "[!] couldn't decode key file.") w1)
  | Some block =>
      if negb (bytes_eqb (pem.Type_ block) (B "RSA PRIVATE KEY")) then
        (Exit 1, printed (Msg "[!] key is not a private key.") w1)
      else (Return (x509_ParsePKCS1PrivateKey (pem.Bytes block)), w1)
  end.
Proof.
  intros Hf. unfold loadPrivateKey. rewrite bind_unfold, Hf.
  destruct (pem.Decode kb) as [[block|] r]; cbn [fst]; [|reflexivity].
  destruct (negb _); reflexivity.
Qed.

(** C7, as the code has it.  Without an envelope, or with an envelope
    of another type, [loadPrivateKey] prints a line and ends the
    process with status 1; nothing comes back to the caller.  With an
    envelope of the right type, it returns what the parser of the inner
    structure returns, its error included. *)
Theorem loadPrivateKey_outcomes `{Crypto} (name : string) (w w1 : World)
        (kb : bytes) (err : option error) :
  fetchKey name true w = (Return (kb, err), w1) ->
  (fst (pem.Decode kb) = None ->
   loadPrivateKey name w
   = (Exit 1, printed (Msg "[!] couldn't decode key file.") w1))
  /\ (forall blk, fst (pem.Decode kb) = Some blk ->
      pem.Type_ blk <> B "RSA PRIVATE KEY" ->
      loadPrivateKey name w
      = (Exit 1, printed (Msg "[!] key is not a private key.") w1))
  /\ (forall blk, fst (pem.Decode kb) = Some blk ->
      pem.Type_ blk = B "RSA PRIVATE KEY" ->
      loadPrivateKey name w
      = (Return (x509_ParsePKCS1PrivateKey (pem.Bytes blk)), w1)).
Proof.
  intros Hf. rewrite (loadPrivateKey_fetched name w w1 kb err Hf).
  repeat split.
  - now intros ->.
  - intros blk -> Hty. now rewrite (proj2 (bytes_eqb_neq _ _) Hty).
  - intros blk -> Hty. now rewrite (proj2 (bytes_eqb_eq _ _) Hty).
Qed.

Lemma loadPrivateKey_outcomes_witness :
  @loadPrivateKey toy.crypto "id_rsa.pub" toy.world
  = (Exit 1, printed (Msg "[!] couldn't decode key file.") toy.world).
Proof.
  apply (@loadPrivateKey_outcomes toy.crypto "id_rsa.pub" toy.world toy.world
           toy.id_rsa_pub None); reflexivity.
Defined.

(** C7, as the claim has it, fails: a key file without an envelope
    does not make [loadPrivateKey] return an error. *)
Lemma loadPrivateKey_does_not_return :
  ~ (forall (C : Crypto) (name : string) (w w1 : World) (kb : bytes)
            (err : option error),
        fetchKey name true w = (Return (kb, err), w1) ->
        fst (pem.Decode kb) = None ->
        exists e w', @loadPrivateKey C name w = (Return (Err e), w')).
Proof.
  intros Hall.
  destruct (Hall toy.crypto "id_rsa.pub" toy.world toy.world toy.id_rsa_pub None
              eq_refl eq_refl) as (e & w' & He).
  vm_compute in He. discriminate He.
Qed.


(** ** [loadPublicKey] and the error of [fetchKey] *)

(** C8.  The body of the answer was cut short, [ReadAll] returned an
    error with what it had read; [loadPublicKey] decodes these bytes
    and [encrypt] goes on to write the box. *)
Theorem fetch_error_dropped :
  let url := "https://example.org/id_rsa.pub"%string in
  let w := mkWorld (<["notes.txt" := B "hello world"]> ∅) ∅
                   (<[url := mkHttpResponse toy.id_rsa_pub (Some io_ErrUnexpectedEOF)]> ∅)
                   (B "0123456789abcdef") [] in
  fetchKey url false w = (Return (toy.id_rsa_pub, Some io_ErrUnexpectedEOF), w)
  /\ loadPublicKey url false w = (Return (Ok (mkPublicKey 50433 65537)), w)
  /\ fst (@encrypt toy.crypto "notes.txt" "box" url false false w) = Return None
  /\ is_Some_bool (files (snd (@encrypt toy.crypto "notes.txt" "box" url false false w))
                   !! "box") = true.
Proof. vm_compute. repeat split; reflexivity. Qed.

(** * The pipeline: [encrypt] and [decrypt] *)

(** ** The size of a package *)





(** ** The steps of [decrypt] and [encrypt] *)

Lemma decrypt_run `{Crypto} (in_ out keyfile : string) (armour : bool) (w : World)
      (key : PrivateKey) (pkg lockedKey box boxKey : bytes) :
  loadPrivateKey keyfile w = (Return (Ok key), w) ->
  files w !! in_ = Some pkg ->
  unpackageBox pkg w = (Return (Ok (lockedKey, box)), w) ->
  rsa_DecryptOAEP key lockedKey = Ok boxKey ->
  decrypt in_ out keyfile armour w =
  match secretbox_Open box boxKey with
  | None => (Return (Some (errorString "opening box failed")),
             printed (Msg "[!] failed to open box.") w)
  | Some message => ioutil_WriteFile out message w
  end.
Proof.
  intros Hkey Hin Hun Hdec. unfold decrypt.
  rewrite bind_unfold, Hkey, bind_unfold. unfold ioutil_ReadFile at 1.
  rewrite Hin, bind_unfold, Hun, Hdec.
  destruct (secretbox_Open box boxKey); reflexivity.
Qed.

(** What a run of [encrypt] that returns no error has done. *)
Lemma encrypt_success `{Crypto} (in_ out keyfile : string) (local armour : bool)
      (w w1 : World) :
  encrypt in_ out keyfile local armour w = (Return None, w1) ->
  exists pub wk boxKey r1 lockedKey r2 message box r3 pkg,
    loadPublicKey keyfile local w = (Return (Ok pub), wk)
    /\ secretbox_GenerateKey (random wk) = (Ok boxKey, r1)
    /\ rsa_EncryptOAEP pub boxKey r1 = (Ok lockedKey, r2)
    /\ files wk !! in_ = Some message
    /\ secretbox_Seal message boxKey r2 = (Some box, r3)
    /\ packageBox lockedKey box armour (drawn r3 (drawn r2 (drawn r1 wk)))
       = (Return (Ok pkg), drawn r3 (drawn r2 (drawn r1 wk)))
    /\ (out ∉ readonly wk)
    /\ w1 = written out pkg (drawn r3 (drawn r2 (drawn r1 wk))).
Proof.
  intros Hrun. unfold encrypt in Hrun.
  rewrite bind_unfold in Hrun.
  destruct (loadPublicKey keyfile local w) as [[[pub|e]|c|s] wk] eqn:Hpub;
    try discriminate Hrun.
  rewrite bind_unfold in Hrun. unfold with_random at 1 in Hrun.
  destruct (secretbox_GenerateKey (random wk)) as [[boxKey|e] r1] eqn:Hgen;
    [|discriminate Hrun].
  rewrite bind_unfold in Hrun. unfold with_random at 1 in Hrun.
  cbn [random drawn] in Hrun.
  destruct (rsa_EncryptOAEP pub boxKey r1) as [[lockedKey|e] r2] eqn:Henc;
    [|discriminate Hrun].
  rewrite bind_unfold in Hrun. unfold ioutil_ReadFile at 1 in Hrun.
  cbn [files drawn] in Hrun.
  destruct (files wk !! in_) as [message|] eqn:Hin; [|discriminate Hrun].
  rewrite bind_unfold in Hrun. unfold with_random at 1 in Hrun.
  cbn [random drawn] in Hrun.
  destruct (secretbox_Seal message boxKey r2) as [[box|] r3] eqn:Hseal;
    [|discriminate Hrun].
  rewrite bind_unfold in Hrun.
  fold (drawn r1 wk) in Hrun. fold (drawn r2 (drawn r1 wk)) in Hrun.
  fold (drawn r3 (drawn r2 (drawn r1 wk))) in Hrun.
  destruct (packageBox lockedKey box armour (drawn r3 (drawn r2 (drawn r1 wk))))
    as [[[pkg|e]|c|s] wp] eqn:Hpkg; try discriminate Hrun.
  assert (Hwp : wp = drawn r3 (drawn r2 (drawn r1 wk))).
  { revert Hpkg. unfold packageBox.
    destruct (Marshal_Ok (mkBoxPackage lockedKey box)) as (der & -> & _).
    destruct armour; now intros [= _ <-]. }
  subst wp.
  rewrite bind_unfold in Hrun. unfold ioutil_WriteFile in Hrun.
  destruct (bool_decide (out ∈ readonly (drawn r3 (drawn r2 (drawn r1 wk))))) eqn:Hro;
    [discriminate Hrun|].
  apply bool_decide_eq_false in Hro.
  injection Hrun as <-.
  exists pub, wk, boxKey, r1, lockedKey, r2, message, box, r3, pkg.
  repeat split; auto.
Qed.


(** C3.  A box with one bit flipped is not opened: given a [secretbox]
    that refuses such a box, [decrypt] returns the error [opening box
    failed] and writes nothing. *)
Theorem tampered_box_rejected `{Crypto}
        (in_ out keyfile : string) (armour : bool) (w : World)
        (key : PrivateKey) (pkg lockedKey box boxKey message r r' : bytes) (i : nat) :
  secretbox_detects_flips ->
  loadPrivateKey keyfile w = (Return (Ok key), w) ->
  files w !! in_ = Some pkg ->
  unpackageBox pkg w = (Return (Ok (lockedKey, flip_bit i box)), w) ->
  rsa_DecryptOAEP key lockedKey = Ok boxKey ->
  secretbox_Seal message boxKey r = (Some box, r') ->
  (i < 8 * List.length box)%nat ->
  decrypt in_ out keyfile armour w
  = (Return (Some (errorString "opening box failed")),
     printed (Msg "[!] failed to open box.") w)
  /\ files (snd (decrypt in_ out keyfile armour w)) = files w.
Proof.
  intros Hint Hkey Hin Hun Hdec Hseal Hi.
  rewrite (decrypt_run in_ out keyfile armour w key pkg lockedKey (flip_bit i box)
             boxKey Hkey Hin Hun Hdec).
  rewrite (Hint _ _ _ _ _ _ Hseal Hi). split; reflexivity.
Qed.

(** ** The small instance satisfies what is asked *)



Lemma flip_byte_neq (b : byte) (k : nat) :
  (k < 8)%nat -> byte_of_Z (Z.lxor (Z_of_byte b) (Z.shiftl 1 (Z.of_nat k))) <> b.
Proof.
  intros Hk.
  assert (Hall : forallb (fun k => negb (byte_eqb
                   (byte_of_Z (Z.lxor (Z_of_byte b) (Z.shiftl 1 (Z.of_nat k)))) b))
                   (seq 0 8) = true).
  { revert b. apply asn1_facts.byte_forallb. vm_compute. reflexivity. }
  rewrite forallb_forall in Hall. specialize (Hall k ltac:(apply in_seq; lia)).
  apply negb_true_iff, byte_eqb_neq in Hall. exact Hall.
Qed.

Lemma flip_bit_insert (l : bytes) (i : nat) :
  (i < 8 * List.length l)%nat ->
  exists j b b', l !! j = Some b /\ b' <> b /\ flip_bit i l = <[j := b']> l.
Proof.
  revert i. induction l as [|x l IH]; intros i Hi; [simpl in Hi; lia|].
  cbn [flip_bit]. destruct (Nat.ltb_spec i 8) as [Hlt|Hge].
  - exists 0%nat, x. eexists. split; [reflexivity|]. split; [|reflexivity].
    now apply flip_byte_neq.
  - destruct (IH (i - 8)%nat ltac:(cbn [List.length] in Hi; lia))
      as (j & b & b' & Hj & Hne & Heq).
    exists (S j), b, b'. split; [exact Hj|]. split; [exact Hne|].
    rewrite Heq. reflexivity.
Qed.

Lemma toy_detects_flips : @secretbox_detects_flips toy.crypto.
Proof.
  intros message key r box r' i [= <- <-] Hi.
  cbn [secretbox_Open toy.crypto]. unfold toy.Open.
  destruct (flip_bit_insert _ _ Hi) as (j & b & b' & Hj & Hne & ->).
  rewrite length_insert, length_app.
  replace (List.length message + List.length message)%nat
    with (List.length message * 2)%nat by lia.
  rewrite Nat.div_mul by lia.
  set (n := List.length message) in *.
  set (box' := <[j := b']> (message ++ message)).
  destruct (bytes_eqb (take n box' ++ take n box') box') eqn:Heq; [|reflexivity].
  exfalso. apply bytes_eqb_eq in Heq.
  assert (Hjlt : (j < n + n)%nat)
    by (apply lookup_lt_Some in Hj; rewrite length_app in Hj; exact Hj).
  assert (Hlen' : List.length box' = (n + n)%nat)
    by (unfold box'; rewrite length_insert, length_app; reflexivity).
  assert (Ht : List.length (take n box') = n) by (rewrite length_take; lia).
  assert (Hat : box' !! j = Some b')
    by (unfold box'; apply list_lookup_insert_eq; rewrite length_app; exact Hjlt).
  destruct (Nat.lt_ge_cases j n) as [Hlow|Hhigh].
  - (* the flipped byte is in the first half: compare with the second *)
    assert (H2 : box' !! (n + j)%nat = Some b).
    { unfold box'. rewrite list_lookup_insert_ne by lia.
      rewrite lookup_app_r by (fold n; lia).
      replace (n + j - List.length message)%nat with j by (fold n; lia).
      rewrite lookup_app_l in Hj by (fold n; lia). exact Hj. }
    rewrite <- Heq in H2, Hat.
    rewrite lookup_app_r in H2 by lia.
    rewrite lookup_app_l in Hat by lia.
    replace (n + j - List.length (take n box'))%nat with j in H2 by lia.
    congruence.
  - (* the flipped byte is in the second half: compare with the first *)
    assert (H2 : box' !! (j - n)%nat = Some b).
    { unfold box'. rewrite list_lookup_insert_ne by lia.
      rewrite lookup_app_l by (fold n; lia).
      rewrite lookup_app_r in Hj by (fold n; lia). exact Hj. }
    rewrite <- Heq in H2, Hat.
    rewrite lookup_app_l in H2 by lia.
    rewrite lookup_app_r in Hat by lia.
    rewrite Ht in Hat. congruence.
Qed.


Lemma tampered_box_rejected_witness :
  let pkg := match asn1.Marshal
                     (mkBoxPackage ("001"%byte :: B "40123")
                                   (flip_bit 9 (B "hello worldhello world")))
             with Ok der => der | Err _ => [] end in
  let w := mkWorld (<["id_rsa" := toy.id_rsa]> (<["box" := pkg]> ∅)) ∅ ∅ [] [] in
  @decrypt toy.crypto "box" "out.txt" "id_rsa" false w
  = (Return (Some (errorString "opening box failed")),
     printed (Msg "[!] failed to open box.") w)
  /\ files (snd (@decrypt toy.crypto "box" "out.txt" "id_rsa" false w)) = files w.
Proof.
  intros pkg w.
  apply (@tampered_box_rejected toy.crypto "box" "out.txt" "id_rsa" false w
           50433 pkg ("001"%byte :: B "40123") (B "hello worldhello world") (B "0123")
           (B "hello world") [] [] 9%nat).
  - exact toy_detects_flips.
  - vm_compute. reflexivity.
  - vm_compute. reflexivity.
  - vm_compute. reflexivity.
  - vm_compute. reflexivity.
  - reflexivity.
  - vm_compute. lia.
Defined.

(** * More on the key codec *)

(** ** The line of a public key file *)

Lemma is_b64_not_space (c : byte) : base64.is_b64 c -> regexp_isSpace c = false.
Proof.
  intros Hc. unfold regexp_isSpace. cbn [existsb].
  rewrite !(proj2 (byte_eqb_neq c _)); [reflexivity| | | | |];
    apply (base64_facts.is_b64_not c); auto; discriminate.
Qed.

Lemma takeWhile_app (f : byte -> bool) (a t : bytes) :
  Forall (fun c => f c = true) a ->
  match t with [] => True | c :: _ => f c = false end ->
  takeWhile f (a ++ t) = a.
Proof.
  intros Ha Ht. induction Ha as [|c a Hc _ IH]; cbn [app takeWhile].
  - destruct t as [|c t]; [reflexivity|]. cbn [takeWhile]. now rewrite Ht.
  - now rewrite Hc, IH.
Qed.

Lemma pubkeyRegexp_ReplaceAll_line (enc trailer : bytes) :
  enc <> [] -> Forall base64.is_b64 enc ->
  match trailer with [] => True | c :: _ => regexp_isSpace c = true end ->
  Forall (fun c => c <> nl) trailer ->
  pubkeyRegexp_ReplaceAll (B "ssh-rsa " ++ enc ++ trailer) = enc.
Proof.
  intros Hne Henc Hsp Hnl. unfold pubkeyRegexp_ReplaceAll.
  rewrite HasPrefix_app.
  change 8%nat with (List.length (B "ssh-rsa ")). rewrite drop_app_length.
  rewrite takeWhile_app.
  - rewrite drop_app_length, (IndexByte_None trailer nl Hnl).
    destruct enc; [congruence|reflexivity].
  - eapply Forall_impl; [exact Henc|]. intros c Hc.
    now rewrite (is_b64_not_space c Hc).
  - destruct trailer as [|c t]; [exact I|]. now rewrite Hsp.
Qed.

Lemma drop_repeat {A} (x : A) (n j : nat) : drop j (repeat x n) = repeat x (n - j).
Proof.
  revert j. induction n as [|n IH]; intros [|j]; cbn; auto.
Qed.

(** What [loadPublicKey] hands to the field parser: the decoded bytes,
    followed by the zero bytes that [make] put into [kb] and [Decode]
    did not overwrite. *)
Lemma loadPublicKey_buffer (name : string) (local : bool) (w w1 : World)
      (kb64 : bytes) (err : option error) (blob : bytes) :
  fetchKey name local w = (Return (kb64, err), w1) ->
  base64.Decode (pubkeyRegexp_ReplaceAll kb64) = Ok blob ->
  loadPublicKey name local w
  = decodePublicKey
      (blob ++ repeat x00 (base64.DecodedLen (List.length (pubkeyRegexp_ReplaceAll kb64))
                           - List.length blob))
      w1.
Proof.
  intros Hf Hd. unfold loadPublicKey. rewrite bind_unfold, Hf.
  unfold base64_Decode_into. rewrite Hd, drop_repeat. reflexivity.
Qed.

(** X1.  A key file of one line, [ssh-rsa], the base64 text of the
    three fields and, if any, a comment after a blank, is decoded to
    the key: the modulus is the third field, the exponent the second. *)
Theorem public_key_line_parsed (name : string) (w : World) (e m comment : bytes) :
  files w !! name
  = Some (B "ssh-rsa " ++ base64.Encode (sshKeyBlob (B "ssh-rsa") e m) ++ comment) ->
  match comment with [] => True | c :: _ => c = space end ->
  Forall (fun c => c <> nl) comment ->
  Z.of_nat (List.length e) < 2 ^ 31 ->
  Z.of_nat (List.length m) < 2 ^ 31 ->
  loadPublicKey name true w
  = (Return (Ok (mkPublicKey (be_value m) (big_Int64 (be_value e)))), w).
Proof.
  intros Hfile Hsp Hnl He Hm.
  assert (Hre : pubkeyRegexp_ReplaceAll
                  (B "ssh-rsa " ++ base64.Encode (sshKeyBlob (B "ssh-rsa") e m) ++ comment)
                = base64.Encode (sshKeyBlob (B "ssh-rsa") e m)).
  { apply pubkeyRegexp_ReplaceAll_line.
    - apply base64_facts.Encode_nonempty. discriminate.
    - apply base64_facts.Encode_is_b64.
    - destruct comment as [|c t]; [exact I|]. now subst c.
    - exact Hnl. }
  rewrite (loadPublicKey_buffer name true w w _ None (sshKeyBlob (B "ssh-rsa") e m)
             (fetchKey_local_found _ _ _ Hfile)).
  - now apply decodePublicKey_blob.
  - rewrite Hre. apply base64_facts.Decode_Encode.
Qed.

Lemma public_key_line_parsed_witness :
  loadPublicKey "id_rsa.pub" true toy.world
  = (Return (Ok (mkPublicKey (be_value toy.modulus) (big_Int64 (be_value toy.exponent)))),
     toy.world).
Proof.
  apply (public_key_line_parsed "id_rsa.pub" toy.world toy.exponent toy.modulus
           (B " user@host")).
  - reflexivity.
  - reflexivity.
  - repeat (constructor; [discriminate|]). constructor.
  - vm_compute. reflexivity.
  - vm_compute. reflexivity.
Defined.

Lemma IndexByte_In (s : bytes) (c : byte) : In c s -> IndexByte s c <> None.
Proof.
  induction s as [|x s IH]; [contradiction|]. cbn [IndexByte].
  destruct (byte_eqb x c) eqn:Hx; [discriminate|].
  intros [->|Hin]; [now rewrite byte_eqb_refl in Hx|].
  destruct (IndexByte s c); [discriminate|]. now apply IH in Hin.
Qed.

Lemma trailer_keeps_line_feed (rest : bytes) :
  In nl rest ->
  In nl (drop (List.length (takeWhile (fun c => negb (regexp_isSpace c)) rest)) rest).
Proof.
  induction rest as [|c rest IH]; [contradiction|]. cbn [takeWhile].
  destruct (negb (regexp_isSpace c)) eqn:Hc; cbn [List.length drop]; [|auto].
  intros [->|Hin]; [discriminate Hc|]. now apply IH.
Qed.

(** X2.  A key file that starts with [ssh-rsa ] and holds a line feed
    anywhere after it (at the end of the line, as [ssh-keygen] writes
    it) is not matched by [pubkeyRegexp]: the whole text goes to the
    base64 decoder, which stops at the dash of [ssh-rsa]. *)
Theorem key_line_with_line_feed_rejected (name : string) (w : World) (rest : bytes) :
  files w !! name = Some (B "ssh-rsa " ++ rest) ->
  In nl rest ->
  loadPublicKey name true w
  = (Return (Err base64_CorruptInputError),
     printed (MsgErr "[!] couldn't decode public key:" base64_CorruptInputError) w).
Proof.
  intros Hfile Hin. unfold loadPublicKey.
  rewrite bind_unfold, (fetchKey_local_found _ _ _ Hfile).
  assert (Hre : pubkeyRegexp_ReplaceAll (B "ssh-rsa " ++ rest) = B "ssh-rsa " ++ rest).
  { unfold pubkeyRegexp_ReplaceAll. rewrite HasPrefix_app.
    change 8%nat with (List.length (B "ssh-rsa ")). rewrite drop_app_length.
    pose proof (IndexByte_In _ _ (trailer_keeps_line_feed rest Hin)) as Hnl.
    destruct (IndexByte _ nl); [|congruence].
    cbn [is_Some_bool negb]. now rewrite andb_false_r. }
  rewrite Hre. reflexivity.
Qed.

Lemma key_line_with_line_feed_rejected_witness :
  let w := mkWorld (<["id_rsa.pub" := toy.id_rsa_pub ++ [nl]]> ∅) ∅ ∅ [] [] in
  loadPublicKey "id_rsa.pub" true w
  = (Return (Err base64_CorruptInputError),
     printed (MsgErr "[!] couldn't decode public key:" base64_CorruptInputError) w).
Proof.
  intros w.
  apply (key_line_with_line_feed_rejected "id_rsa.pub" w
           (base64.Encode (sshKeyBlob (B "ssh-rsa") toy.exponent toy.modulus)
            ++ B " user@host" ++ [nl])).
  - vm_compute. reflexivity.
  - vm_compute. tauto.
Defined.

Lemma no_newlines_app_line_feeds (s : bytes) (n : nat) :
  Forall base64.is_b64 s -> base64.no_newlines (s ++ repeat nl n) = s.
Proof.
  intros Hs. unfold base64.no_newlines. rewrite List.filter_app.
  fold (base64.no_newlines s). rewrite (pem_facts.no_newlines_b64 s Hs).
  replace (List.filter _ (repeat nl n)) with (@nil byte);
    [apply app_nil_r|].
  induction n as [|n IH]; [reflexivity|exact IH].
Qed.

(** X3.  [kb] keeps the length [DecodedLen] whatever was decoded: a
    blob that ends after the algorithm name, followed in the file by
    twelve line feeds or more, is read as a key with an empty exponent
    and an empty modulus. *)
Theorem trailing_zeros_read_as_fields (name : string) (w : World) (n : nat) :
  (12 <= n)%nat ->
  files w !! name = Some (base64.Encode (sshString (B "ssh-rsa")) ++ repeat nl n) ->
  loadPublicKey name true w = (Return (Ok (mkPublicKey 0 0)), w).
Proof.
  intros Hn Hfile.
  assert (Henc : base64.Encode (sshString (B "ssh-rsa")) = B "AAAAB3NzaC1yc2E=")
    by (vm_compute; reflexivity).
  assert (Hre : pubkeyRegexp_ReplaceAll
                  (base64.Encode (sshString (B "ssh-rsa")) ++ repeat nl n)
                = base64.Encode (sshString (B "ssh-rsa")) ++ repeat nl n)
    by (rewrite Henc; reflexivity).
  rewrite (loadPublicKey_buffer name true w w _ None (sshString (B "ssh-rsa"))
             (fetchKey_local_found _ _ _ Hfile)).
  2:{ rewrite Hre, base64_facts.Decode_no_newlines, no_newlines_app_line_feeds
        by apply base64_facts.Encode_is_b64.
      apply base64_facts.Decode_Encode. }
  rewrite Hre, length_app, repeat_length, Henc.
  change (List.length (B "AAAAB3NzaC1yc2E=")) with 16%nat.
  change (List.length (sshString (B "ssh-rsa"))) with 11%nat.
  unfold base64.DecodedLen.
  assert (Hq : (7 <= (16 + n) / 4)%nat)
    by (apply Nat.div_le_lower_bound; lia).
  destruct (Nat.le_exists_sub 8 ((16 + n) / 4 * 3 - 11)%nat ltac:(lia)) as [k [Hk _]].
  assert (Hz : repeat x00 ((16 + n) / 4 * 3 - 11)
               = sshString [] ++ sshString [] ++ repeat x00 k)
    by (rewrite Hk, (Nat.add_comm k 8), repeat_app; reflexivity).
  rewrite Hz.
  replace (sshString (B "ssh-rsa") ++ sshString [] ++ sshString [] ++ repeat x00 k)
    with (sshKeyBlob (B "ssh-rsa") [] [] ++ repeat x00 k)
    by (unfold sshKeyBlob; rewrite <- !app_assoc; reflexivity).
  rewrite decodePublicKey_blob by (simpl; lia). reflexivity.
Qed.

Lemma trailing_zeros_read_as_fields_witness :
  let w := mkWorld (<["id_rsa.pub" := B "AAAAB3NzaC1yc2E=" ++ repeat nl 12]> ∅)
                   ∅ ∅ [] [] in
  loadPublicKey "id_rsa.pub" true w = (Return (Ok (mkPublicKey 0 0)), w).
Proof.
  intros w. apply (trailing_zeros_read_as_fields "id_rsa.pub" w 12).
  - lia.
  - vm_compute. reflexivity.
Defined.

(** X4.  A key file that cannot be read is reported by [fetchKey] and
    then decoded all the same: [loadPublicKey] returns [io.EOF], the
    error of the first read from the empty buffer. *)
Theorem missing_key_file_reports_EOF (name : string) (w : World) :
  files w !! name = None ->
  loadPublicKey name true w
  = (Return (Err io_EOF),
     printed (MsgErr "[!] failed to read public key:" io_EOF)
       (printed (MsgErr "[!]" (os_PathError "open" name)) w)).
Proof.
  intros Hfile. unfold loadPublicKey.
  rewrite bind_unfold, (fetchKey_local_missing _ _ Hfile). reflexivity.
Qed.

Lemma missing_key_file_reports_EOF_witness :
  loadPublicKey "nowhere.pub" true toy.world
  = (Return (Err io_EOF),
     printed (MsgErr "[!] failed to read public key:" io_EOF)
       (printed (MsgErr "[!]" (os_PathError "open" "nowhere.pub")) toy.world)).
Proof.
  apply (missing_key_file_reports_EOF "nowhere.pub" toy.world). reflexivity.
Defined.

(** X5.  The same for a key that is fetched: when [http.Get] fails,
    [fetchKey] prints and returns the error, and [loadPublicKey]
    returns [io.EOF]. *)
Theorem failed_get_reports_EOF (url : string) (w : World) :
  remote w !! url = None ->
  fetchKey url false w
  = (Return ([], Some (net_Error url)),
     printed (MsgErr "[!] failed to fetch key:" (net_Error url)) w)
  /\ loadPublicKey url false w
     = (Return (Err io_EOF),
        printed (MsgErr "[!] failed to read public key:" io_EOF)
          (printed (MsgErr "[!] failed to fetch key:" (net_Error url)) w)).
Proof.
  intros Hget.
  assert (Hf : fetchKey url false w
               = (Return ([], Some (net_Error url)),
                  printed (MsgErr "[!] failed to fetch key:" (net_Error url)) w)).
  { unfold fetchKey. rewrite bind_unfold. unfold http_Get. now rewrite Hget. }
  split; [exact Hf|]. unfold loadPublicKey. rewrite bind_unfold, Hf. reflexivity.
Qed.

Lemma failed_get_reports_EOF_witness :
  fetchKey "http://example.org/k" false toy.world
  = (Return ([], Some (net_Error "http://example.org/k")),
     printed (MsgErr "[!] failed to fetch key:" (net_Error "http://example.org/k"))
       toy.world)
  /\ loadPublicKey "http://example.org/k" false toy.world
     = (Return (Err io_EOF),
        printed (MsgErr "[!] failed to read public key:" io_EOF)
          (printed (MsgErr "[!] failed to fetch key:" (net_Error "http://example.org/k"))
             toy.world)).
Proof.
  apply (failed_get_reports_EOF "http://example.org/k" toy.world). reflexivity.
Defined.

(** ** What the field parser accepts and refuses *)

Lemma uint32_be_be_value (bs : bytes) :
  List.length bs = 4%nat -> uint32_be (be_value bs) = bs.
Proof.
  destruct bs as [|b0 [|b1 [|b2 [|b3 [|? ?]]]]]; try discriminate. intros _.
  unfold be_value. rewrite !be_fold_cons. unfold be_fold. cbn [fold_left].
  pose proof (Z_of_byte_range b0). pose proof (Z_of_byte_range b1).
  pose proof (Z_of_byte_range b2). pose proof (Z_of_byte_range b3).
  unfold uint32_be. rewrite !Z.shiftr_div_pow2 by lia.
  f_equal; [|f_equal; [|f_equal; [|f_equal]]]; apply byte_of_Z_mod;
    Z.div_mod_to_equations; lia.
Qed.

Lemma be_value_4_range (bs : bytes) :
  List.length bs = 4%nat -> 0 <= be_value bs < 2 ^ 32.
Proof.
  intros Hl. pose proof (be_fold_bound bs 0 ltac:(lia)) as Hb.
  rewrite Hl in Hb. unfold be_value. simpl in Hb. lia.
Qed.

(** The three ways [readField] ends. *)
Lemma readField_cases (buf : bytes) (w : World) :
  (exists e, (e = io_EOF \/ e = io_ErrUnexpectedEOF)
             /\ exists l, readField buf w = (Return (Err e), printed l w))
  \/ readField buf w = (Panic "makeslice: len out of range", w)
  \/ (exists f rest, buf = sshString f ++ rest
                     /\ Z.of_nat (List.length f) < 2 ^ 31
                     /\ readField buf w = (Return (Ok (f, rest)), w)).
Proof.
  unfold readField, binary_Read_int32.
  destruct (Nat.lt_ge_cases (List.length buf) 4) as [Hshort|Hlong].
  - left. unfold io_ReadFull. cbn [Nat.eqb].
    destruct (List.length buf =? 0)%nat.
    + exists io_EOF. split; [auto|]. eexists. reflexivity.
    + rewrite (proj2 (Nat.ltb_lt _ _) Hshort).
      exists io_ErrUnexpectedEOF. split; [auto|]. eexists. reflexivity.
  - assert (Hrd : io_ReadFull buf 4 = (Ok (take 4 buf), drop 4 buf)).
    { unfold io_ReadFull. cbn [Nat.eqb].
      destruct (List.length buf =? 0)%nat eqn:H0; [apply Nat.eqb_eq in H0; lia|].
      now rewrite (proj2 (Nat.ltb_ge _ _) Hlong). }
    rewrite Hrd.
    assert (Hl4 : List.length (take 4 buf) = 4%nat) by (rewrite length_take; lia).
    pose proof (be_value_4_range _ Hl4) as Hv.
    pose proof (uint32_be_be_value _ Hl4) as Hu.
    set (v := be_value (take 4 buf)) in *.
    rewrite bind_unfold. unfold make_bytes, to_int32.
    destruct (Z.ltb_spec v (2 ^ 31)) as [Hpos|Hneg].
    + destruct (Z.ltb_spec v 0) as [?|_]; [lia|]. cbn [ret].
      rewrite repeat_length.
      unfold io_ReadFull.
      destruct (Z.to_nat v =? 0)%nat eqn:Hz.
      * right. right. exists [], (drop 4 buf). apply Nat.eqb_eq in Hz.
        assert (v = 0) by lia. split; [|split; [simpl; lia|reflexivity]].
        unfold sshString. cbn [List.length]. change (Z.of_nat 0) with 0.
        replace 0 with v by lia. rewrite Hu, app_nil_r. symmetry. apply take_drop.
      * destruct (List.length (drop 4 buf) =? 0)%nat.
        { left. exists io_EOF. split; [auto|]. eexists. reflexivity. }
        destruct (Nat.ltb_spec (List.length (drop 4 buf)) (Z.to_nat v)) as [Hlt|Hge].
        { left. exists io_ErrUnexpectedEOF. split; [auto|]. eexists. reflexivity. }
        right. right. exists (take (Z.to_nat v) (drop 4 buf)),
                        (drop (Z.to_nat v) (drop 4 buf)).
        assert (Hlf : List.length (take (Z.to_nat v) (drop 4 buf)) = Z.to_nat v)
          by (rewrite length_take; lia).
        split; [|split; [lia|reflexivity]].
        unfold sshString. rewrite Hlf, Z2Nat.id, Hu by lia.
        rewrite <- app_assoc, take_drop. symmetry. apply take_drop.
    + right. left.
      destruct (Z.ltb_spec (v - 2 ^ 32) 0) as [_|?]; [reflexivity|lia].
Qed.

(** X6.  [loadPublicKey] returns a key only when the bytes handed to
    the field parser begin with three whole fields, the first of them
    [ssh-rsa]: nothing is read beyond the buffer, and the key is made
    of the second and the third field. *)
Theorem decoded_key_had_three_fields (kb : bytes) (w w' : World) (key : PublicKey) :
  decodePublicKey kb w = (Return (Ok key), w') ->
  exists e m rest,
    kb = sshKeyBlob (B "ssh-rsa") e m ++ rest
    /\ key = mkPublicKey (be_value m) (big_Int64 (be_value e))
    /\ w' = w.
Proof.
  unfold decodePublicKey. rewrite bind_unfold.
  destruct (readField_cases kb w)
    as [(e1 & _ & l & ->)|[->|(alg & r1 & -> & _ & ->)]]; try discriminate.
  destruct (bytes_eqb alg (B "ssh-rsa")) eqn:Halg; cbn [negb]; [|discriminate].
  apply bytes_eqb_eq in Halg. subst alg. rewrite bind_unfold.
  destruct (readField_cases r1 w)
    as [(e1 & _ & l & ->)|[->|(e & r2 & -> & _ & ->)]]; try discriminate.
  rewrite bind_unfold.
  destruct (readField_cases r2 w)
    as [(e1 & _ & l & ->)|[->|(m & r3 & -> & _ & ->)]]; try discriminate.
  intros [= <- <-]. exists e, m, r3. unfold sshKeyBlob.
  rewrite <- !app_assoc. auto.
Qed.

Lemma decoded_key_had_three_fields_witness :
  exists e m rest,
    sshKeyBlob (B "ssh-rsa") toy.exponent toy.modulus
    = sshKeyBlob (B "ssh-rsa") e m ++ rest
    /\ mkPublicKey 50433 65537 = mkPublicKey (be_value m) (big_Int64 (be_value e))
    /\ toy.world = toy.world.
Proof.
  apply (decoded_key_had_three_fields
           (sshKeyBlob (B "ssh-rsa") toy.exponent toy.modulus) toy.world toy.world
           (mkPublicKey 50433 65537)).
  vm_compute. reflexivity.
Defined.

(** X9.  The error [invalid public key] has one cause: the first field
    was read whole and is not [ssh-rsa].  Every other error of the
    field parser is [io.EOF] or [io.ErrUnexpectedEOF]. *)
Theorem decodePublicKey_errors (kb : bytes) (w w' : World) (e : error) :
  decodePublicKey kb w = (Return (Err e), w') ->
  (e = errorString "invalid public key"
   /\ exists alg rest, kb = sshString alg ++ rest /\ alg <> B "ssh-rsa")
  \/ e = io_EOF \/ e = io_ErrUnexpectedEOF.
Proof.
  unfold decodePublicKey. rewrite bind_unfold.
  destruct (readField_cases kb w)
    as [(e1 & He1 & l & ->)|[->|(alg & r1 & -> & _ & ->)]]; try discriminate.
  { intros [= <- _]. right. exact He1. }
  destruct (bytes_eqb alg (B "ssh-rsa")) eqn:Halg; cbn [negb].
  2:{ intros [= <- _]. left. split; [reflexivity|].
      exists alg, r1. split; [reflexivity|]. now apply bytes_eqb_neq. }
  rewrite bind_unfold.
  destruct (readField_cases r1 w)
    as [(e1 & He1 & l & ->)|[->|(ex & r2 & -> & _ & ->)]]; try discriminate.
  { intros [= <- _]. right. exact He1. }
  rewrite bind_unfold.
  destruct (readField_cases r2 w)
    as [(e1 & He1 & l & ->)|[->|(m & r3 & -> & _ & ->)]]; try discriminate.
  intros [= <- _]. right. exact He1.
Qed.

Lemma decodePublicKey_errors_witness :
  (io_ErrUnexpectedEOF = errorString "invalid public key"
   /\ exists alg rest, B "abc" = sshString alg ++ rest /\ alg <> B "ssh-rsa")
  \/ io_ErrUnexpectedEOF = io_EOF \/ io_ErrUnexpectedEOF = io_ErrUnexpectedEOF.
Proof.
  apply (decodePublicKey_errors (B "abc") toy.world
           (printed (MsgErr "[!] failed to read public key:" io_ErrUnexpectedEOF)
              toy.world)).
  reflexivity.
Defined.

(** X8.  A length with the high bit set makes [make] panic, in any of
    the three fields. *)
Theorem negative_length_panics (n : Z) (e rest : bytes) (w : World) :
  2 ^ 31 <= n < 2 ^ 32 ->
  Z.of_nat (List.length e) < 2 ^ 31 ->
  decodePublicKey (uint32_be n ++ rest) w = (Panic "makeslice: len out of range", w)
  /\ decodePublicKey (sshString (B "ssh-rsa") ++ uint32_be n ++ rest) w
     = (Panic "makeslice: len out of range", w)
  /\ decodePublicKey (sshString (B "ssh-rsa") ++ sshString e ++ uint32_be n ++ rest) w
     = (Panic "makeslice: len out of range", w).
Proof.
  intros Hn He.
  assert (Hp : forall r, readField (uint32_be n ++ r) w
                         = (Panic "makeslice: len out of range", w)).
  { intros r. unfold readField. rewrite binary_Read_int32_uint32_be by lia.
    rewrite bind_unfold. unfold make_bytes, to_int32.
    destruct (Z.ltb_spec n (2 ^ 31)) as [?|_]; [lia|].
    destruct (Z.ltb_spec (n - 2 ^ 32) 0) as [_|?]; [reflexivity|lia]. }
  unfold decodePublicKey. repeat split.
  - now rewrite bind_unfold, Hp.
  - rewrite bind_unfold, readField_sshString by (vm_compute; reflexivity).
    rewrite (proj2 (bytes_eqb_eq _ _) eq_refl). cbn [negb].
    now rewrite bind_unfold, Hp.
  - rewrite bind_unfold, readField_sshString by (vm_compute; reflexivity).
    rewrite (proj2 (bytes_eqb_eq _ _) eq_refl). cbn [negb].
    rewrite bind_unfold, readField_sshString by exact He.
    now rewrite bind_unfold, Hp.
Qed.

Lemma negative_length_panics_witness :
  decodePublicKey (uint32_be 4294967295 ++ []) toy.world
  = (Panic "makeslice: len out of range", toy.world)
  /\ decodePublicKey (sshString (B "ssh-rsa") ++ uint32_be 4294967295 ++ []) toy.world
     = (Panic "makeslice: len out of range", toy.world)
  /\ decodePublicKey (sshString (B "ssh-rsa") ++ sshString toy.exponent
                      ++ uint32_be 4294967295 ++ []) toy.world
     = (Panic "makeslice: len out of range", toy.world).
Proof.
  apply (negative_length_panics 4294967295 toy.exponent [] toy.world).
  - lia.
  - vm_compute. reflexivity.
Defined.

Lemma readField_cut (s more : bytes) (k : nat) (w : World) :
  Z.of_nat (List.length s) < 2 ^ 31 ->
  (k < List.length (sshString s))%nat ->
  exists e l, (e = io_EOF \/ e = io_ErrUnexpectedEOF)
              /\ readField (take k (sshString s ++ more)) w = (Return (Err e), printed l w).
Proof.
  intros Hs Hk. rewrite take_app_le by lia.
  destruct (readField_cases (take k (sshString s)) w)
    as [(e & He & l & Hr)|[Hr|(f & rest & Heq & Hf & _)]].
  - eauto.
  - (* the length that is read is the one of [s], or the read fails before *)
    exfalso. revert Hr.
    destruct (Nat.lt_ge_cases k 4) as [Hshort|Hlong].
    + unfold readField, binary_Read_int32, io_ReadFull. cbn [Nat.eqb].
      rewrite length_take.
      destruct (_ =? 0)%nat; [discriminate|].
      replace (_ <? 4)%nat with true by (symmetry; apply Nat.ltb_lt; lia).
      discriminate.
    + unfold sshString. rewrite take_app_ge by (simpl; lia).
      change (List.length (uint32_be (Z.of_nat (List.length s)))) with 4%nat.
      unfold readField.
      rewrite binary_Read_int32_uint32_be by lia.
      rewrite bind_unfold. unfold make_bytes, to_int32.
      destruct (Z.ltb_spec (Z.of_nat (List.length s)) (2 ^ 31)) as [_|?]; [|lia].
      destruct (Z.ltb_spec (Z.of_nat (List.length s)) 0) as [?|_]; [lia|].
      cbn [ret]. destruct (io_ReadFull _ _) as [[?|?] ?]; discriminate.
  - exfalso.
    assert (Hlen : (List.length (sshString f) <= k)%nat).
    { apply (f_equal (@List.length byte)) in Heq.
      rewrite length_take, length_app in Heq. lia. }
    assert (Hpre : uint32_be (Z.of_nat (List.length f))
                   = uint32_be (Z.of_nat (List.length s))).
    { assert (H4 : take 4 (take k (sshString s)) = take 4 (sshString f ++ rest))
        by now rewrite Heq.
      unfold sshString in Hlen. rewrite length_app in Hlen.
      change (List.length (uint32_be _)) with 4%nat in Hlen.
      rewrite take_take in H4. replace (4 `min` k)%nat with 4%nat in H4 by lia.
      unfold sshString in H4. rewrite <- app_assoc in H4. symmetry. exact H4. }
    apply (f_equal be_value) in Hpre.
    rewrite !be_value_uint32_be in Hpre by lia.
    unfold sshString in Hlen, Hk. rewrite length_app in Hlen, Hk.
    change (List.length (uint32_be _)) with 4%nat in Hlen, Hk. lia.
Qed.

(** X7.  A key blob that is cut short, anywhere, is refused with
    [io.EOF] or [io.ErrUnexpectedEOF]: no key, no panic. *)
Theorem truncated_blob_is_an_error (e m : bytes) (k : nat) (w : World) :
  Z.of_nat (List.length e) < 2 ^ 31 ->
  Z.of_nat (List.length m) < 2 ^ 31 ->
  (k < List.length (sshKeyBlob (B "ssh-rsa") e m))%nat ->
  exists err l,
    (err = io_EOF \/ err = io_ErrUnexpectedEOF)
    /\ decodePublicKey (take k (sshKeyBlob (B "ssh-rsa") e m)) w
       = (Return (Err err), printed l w).
Proof.
  intros He Hm Hk. unfold sshKeyBlob in *. rewrite !length_app in Hk.
  unfold decodePublicKey. rewrite bind_unfold.
  destruct (Nat.lt_ge_cases k (List.length (sshString (B "ssh-rsa")))) as [H1|H1].
  { destruct (readField_cut (B "ssh-rsa") (sshString e ++ sshString m) k w
                ltac:(vm_compute; reflexivity) H1) as (err & l & Herr & ->).
    eauto. }
  rewrite take_app_ge by exact H1.
  rewrite readField_sshString by (vm_compute; reflexivity).
  rewrite (proj2 (bytes_eqb_eq _ _) eq_refl). cbn [negb].
  rewrite bind_unfold.
  set (k1 := (k - List.length (sshString (B "ssh-rsa")))%nat).
  destruct (Nat.lt_ge_cases k1 (List.length (sshString e))) as [H2|H2].
  { destruct (readField_cut e (sshString m) k1 w He H2) as (err & l & Herr & ->).
    eauto. }
  rewrite take_app_ge by exact H2.
  rewrite readField_sshString by exact He.
  rewrite bind_unfold.
  destruct (readField_cut m [] (k1 - List.length (sshString e)) w Hm
              ltac:(unfold k1; lia)) as (err & l & Herr & Hr).
  rewrite app_nil_r in Hr. rewrite Hr. eauto.
Qed.

Lemma truncated_blob_is_an_error_witness :
  exists err l,
    (err = io_EOF \/ err = io_ErrUnexpectedEOF)
    /\ decodePublicKey (take 13 (sshKeyBlob (B "ssh-rsa") toy.exponent toy.modulus))
                       toy.world
       = (Return (Err err), printed l toy.world).
Proof.
  apply (truncated_blob_is_an_error toy.exponent toy.modulus 13 toy.world).
  - vm_compute. reflexivity.
  - vm_compute. reflexivity.
  - vm_compute. lia.
Defined.

(** * More on the pipeline *)

(** ** Which files a run writes *)














(** X12.  What [encrypt] has done when it returns [nil]: the file
    [out] holds the package of the box key, encrypted to the public
    key of [keyfile], and of the sealed bytes of [in]; the box key was
    drawn from [rand.Reader] in this run. *)
Theorem encrypt_output `{Crypto} (in_ out keyfile : string) (local armour : bool)
        (w w1 : World) :
  encrypt in_ out keyfile local armour w = (Return None, w1) ->
  exists pub wk boxKey r1 lockedKey r2 message box r3 pkg,
    loadPublicKey keyfile local w = (Return (Ok pub), wk)
    /\ secretbox_GenerateKey (random w) = (Ok boxKey, r1)
    /\ rsa_EncryptOAEP pub boxKey r1 = (Ok lockedKey, r2)
    /\ files w !! in_ = Some message
    /\ secretbox_Seal message boxKey r2 = (Some box, r3)
    /\ packageBox lockedKey box armour w1 = (Return (Ok pkg), w1)
    /\ files w1 = <[out := pkg]> (files w)
    /\ random w1 = r3.
Proof.
  intros Hrun.
  destruct (encrypt_success _ _ _ _ _ _ _ Hrun)
    as (pub & wk & boxKey & r1 & lockedKey & r2 & message & box & r3 & pkg
        & Hpub & Hgen & Henc & Hin & Hseal & Hpkg & Hro & ->).
  destruct (only_prints_loadPublicKey _ _ _ _ _ Hpub) as (Hf & _ & _ & Hr).
  exists pub, wk, boxKey, r1, lockedKey, r2, message, box, r3, pkg.
  rewrite <- Hr, <- Hf. repeat split; auto.
  - revert Hpkg. unfold packageBox.
    destruct (Marshal_Ok (mkBoxPackage lockedKey box)) as (der & -> & _).
    destruct armour; intros [= <-]; reflexivity.
Qed.

Lemma encrypt_output_witness :
  let w1 := snd (@encrypt toy.crypto "notes.txt" "box" "id_rsa.pub" true true toy.world) in
  exists pub wk boxKey r1 lockedKey r2 message box r3 pkg,
    loadPublicKey "id_rsa.pub" true toy.world = (Return (Ok pub), wk)
    /\ @secretbox_GenerateKey toy.crypto (random toy.world) = (Ok boxKey, r1)
    /\ @rsa_EncryptOAEP toy.crypto pub boxKey r1 = (Ok lockedKey, r2)
    /\ files toy.world !! "notes.txt" = Some message
    /\ @secretbox_Seal toy.crypto message boxKey r2 = (Some box, r3)
    /\ packageBox lockedKey box true w1 = (Return (Ok pkg), w1)
    /\ files w1 = <["box" := pkg]> (files toy.world)
    /\ random w1 = r3.
Proof.
  intros w1.
  apply (@encrypt_output toy.crypto "notes.txt" "box" "id_rsa.pub" true true
           toy.world w1).
  vm_compute. reflexivity.
Defined.

(** ** Private key files *)

(** X13.  A private key file as [ssh-keygen] writes it, an [RSA
    PRIVATE KEY] envelope around the structure, is opened and its
    contents handed to the parser. *)
Theorem private_key_file_parsed `{Crypto} (name : string) (w : World) (der : bytes) :
  files w !! name
  = Some (pem.EncodeToMemory (pem.mkBlock (B "RSA PRIVATE KEY") [] der)) ->
  der <> [] ->
  loadPrivateKey name w = (Return (x509_ParsePKCS1PrivateKey der), w).
Proof.
  intros Hfile Hder.
  rewrite (loadPrivateKey_fetched name w w _ None (fetchKey_local_found _ _ _ Hfile)).
  rewrite pem_facts.Decode_EncodeToMemory; [reflexivity| |exact Hder].
  repeat (constructor; [discriminate|]). constructor.
Qed.

Lemma private_key_file_parsed_witness :
  @loadPrivateKey toy.crypto "id_rsa" toy.world = (Return (Ok 50433), toy.world).
Proof.
  apply (@private_key_file_parsed toy.crypto "id_rsa" toy.world toy.modulus).
  - reflexivity.
  - discriminate.
Defined.

(** X14.  A private key file that cannot be read ends the process:
    [fetchKey] reports the file error, the empty bytes hold no
    envelope, and [loadPrivateKey] exits with status 1. *)
Theorem missing_private_key_exits `{Crypto} (name : string) (w : World) :
  files w !! name = None ->
  loadPrivateKey name w
  = (Exit 1,
     printed (Msg "[!] couldn't decode key file.")
       (printed (MsgErr "[!]" (os_PathError "open" name)) w)).
Proof.
  intros Hfile.
  now rewrite (loadPrivateKey_fetched name w _ [] _ (fetchKey_local_missing _ _ Hfile)).
Qed.

Lemma missing_private_key_exits_witness :
  @loadPrivateKey toy.crypto "nowhere" toy.world
  = (Exit 1,
     printed (Msg "[!] couldn't decode key file.")
       (printed (MsgErr "[!]" (os_PathError "open" "nowhere")) toy.world)).
Proof.
  apply (@missing_private_key_exits toy.crypto "nowhere" toy.world). reflexivity.
Defined.

(** X15.  Loading a key and unpacking a box only print: no file is
    written, nothing is drawn from [rand.Reader], and, as far as the
    world goes, nothing else changes. *)
Theorem loading_only_prints `{Crypto} (name : string) (local : bool) (pkg : bytes)
        (w : World) :
  same_but_stdout w (snd (loadPublicKey name local w))
  /\ same_but_stdout w (snd (loadPrivateKey name w))
  /\ same_but_stdout w (snd (unpackageBox pkg w)).
Proof.
  repeat split.
  all: try (destruct (loadPublicKey name local w) as [o w'] eqn:Hr;
            apply (only_prints_loadPublicKey _ _ _ _ _ Hr)).
  all: try (destruct (loadPrivateKey name w) as [o w'] eqn:Hr;
            apply (only_prints_loadPrivateKey _ _ _ _ Hr)).
  all: try (destruct (unpackageBox pkg w) as [o w'] eqn:Hr;
            apply (only_prints_unpackageBox _ _ _ _ Hr)).
Qed.

(** * The command: [main] *)
















(** X17.  A private key is never fetched: with [-d] and a key that
    starts with [http://] or [https://], [main] prints one line and
    exits with status 1; no file is read and nothing is fetched. *)
Theorem main_refuses_remote_private_key `{Crypto} (fl : Flags) (source target : string)
        (w : World) :
  flDecrypt fl = true -> flEncrypt fl = false ->
  Args fl = [source; target] ->
  remoteCheck_MatchString (flKeyFile fl) = true ->
  main fl w
  = (Exit 1, printed (Msg "[+] remotely fetching private keys is not allowed.") w).
Proof.
  intros Hd He Hargs Hremote. unfold main. rewrite Hd, He, Hargs. cbn [andb].
  destruct (String.eqb_spec (flKeyFile fl) "") as [Hk|Hk].
  { rewrite Hk in Hremote. discriminate Hremote. }
  rewrite Hremote. reflexivity.
Qed.

Lemma main_refuses_remote_private_key_witness :
  @main toy.crypto
        (@mkFlags false true false "https://example.org/id_rsa" ["box"; "out"]%string
                  "sshbox")
        toy.world
  = (Exit 1,
     printed (Msg "[+] remotely fetching private keys is not allowed.") toy.world).
Proof.
  apply (@main_refuses_remote_private_key toy.crypto
           (@mkFlags false true false "https://example.org/id_rsa" ["box"; "out"]%string
                     "sshbox")
           "box" "out" toy.world); reflexivity.
Defined.
